(** * local-md-kanban: the client-side state layer

    A shallow embedding of the hooks [useTasks] and [useGitSync] and of the
    board handlers of [KanbanBoard], followed by the properties of the sort
    engine, the task store, the drag-and-drop handlers and the sync
    lifecycle.

    Conventions of the embedding.
    - React state is a record; a handler is a function from the record of
      the render it was created in to the next record.  An [async] handler is
      cut at each [await]: one function for the synchronous prefix, one for
      each continuation, the settled promise being an argument of type
      [Response].
    - Values captured by a [useCallback] closure ([sortOption] in
      [loadTasks] and [saveTask]) are explicit arguments.
    - The wall clock, the pending [setTimeout] callbacks and the log of
      backend calls are fields of the board record. *)

From Stdlib Require Import List String Ascii ZArith Lia Bool Permutation Sorted.
Import ListNotations.

Local Open Scope Z_scope.

(* ================================================================== *)
(** * Part I: the program                                              *)
(* ================================================================== *)

(** ** types.ts *)

(** [type Status = "未着手" | "着手中" | "完了"] *)
Inductive Status : Type := NotStarted | InProgress | Done.

(** [type Priority = "低" | "中" | "高"] *)
Inductive Priority : Type := Low | Medium | High.

Record SubTask : Type := mkSubTask {
  text : string;
  completed : bool
}.

Record Task : Type := mkTask {
  filePath : string;
  title : string;
  created : string;
  updated : string;
  status : Status;
  priority : Priority;
  due : string;
  assignee : string;
  subTasks : list SubTask;
  memo : string
}.

Inductive SortOption : Type :=
| CreatedDesc | CreatedAsc
| UpdatedDesc | UpdatedAsc
| DueAsc | DueDesc
| PriorityDesc | PriorityAsc.

Record SyncResult : Type := mkSyncResult {
  pulled : bool;
  pushed : bool;
  conflicts : bool;
  message : string
}.

Record GitSettings : Type := mkGitSettings {
  syncBranch : string
}.

(** The literal behind each member of the [Status] union. *)
Definition status_name (s : Status) : string :=
  match s with
  | NotStarted => "未着手"
  | InProgress => "着手中"
  | Done => "完了"
  end.

Definition Status_eqb (a b : Status) : bool :=
  match a, b with
  | NotStarted, NotStarted | InProgress, InProgress | Done, Done => true
  | _, _ => false
  end.

Definition SortOption_eqb (a b : SortOption) : bool :=
  match a, b with
  | CreatedDesc, CreatedDesc | CreatedAsc, CreatedAsc
  | UpdatedDesc, UpdatedDesc | UpdatedAsc, UpdatedAsc
  | DueAsc, DueAsc | DueDesc, DueDesc
  | PriorityDesc, PriorityDesc | PriorityAsc, PriorityAsc => true
  | _, _ => false
  end.

Definition Priority_eqb (a b : Priority) : bool :=
  match a, b with
  | Low, Low | Medium, Medium | High, High => true
  | _, _ => false
  end.

(** [{ ...t, status: s }] and [{ ...t, updated: u }] *)
Definition with_status (s : Status) (t : Task) : Task :=
  mkTask (filePath t) (title t) (created t) (updated t) s (priority t)
         (due t) (assignee t) (subTasks t) (memo t).

Definition with_updated (u : string) (t : Task) : Task :=
  mkTask (filePath t) (title t) (created t) u (status t) (priority t)
         (due t) (assignee t) (subTasks t) (memo t).

(** A settled promise of a backend [invoke]. *)
Inductive Response (A : Type) : Type :=
| Resolved (value : A)
| Rejected (reason : string).

Arguments Resolved {A} value.
Arguments Rejected {A} reason.

(** ** The platform: [String.prototype.localeCompare], [Array.prototype.sort] *)

(** [a.localeCompare(b)] is the collation of the locale.  It is embedded
    as the code-unit lexicographic order, which is what the collation
    gives on two strings of one fixed shape, digits at the same places and
    the same separators between them: the timestamps and the ISO dates the
    program writes.  On other strings the collation may order differently;
    so a property below that names a lexical order names it for strings of
    those shapes only, and the other properties rest on nothing but the
    comparison being a consistent three-way one. *)
Definition localeCompare (a b : string) : Z :=
  match String.compare a b with
  | Lt => -1
  | Eq => 0
  | Gt => 1
  end.

Section ArraySort.
Context {A : Type}.
Variable comparefn : A -> A -> Z.

(** One step of the insertion: the pivot, which comes later in the array
    than everything in the sorted prefix, moves in front of an element only
    when [comparefn pivot x] is negative. *)
Fixpoint sort_insert (pivot : A) (prefix : list A) : list A :=
  match prefix with
  | [] => [pivot]
  | x :: rest =>
      if comparefn pivot x <? 0 then pivot :: x :: rest
      else x :: sort_insert pivot rest
  end.

(** [arr.sort(comparefn)] on a fresh copy.  ECMAScript requires the sort to
    be stable and leaves the order open when [comparefn] is inconsistent; the
    engines behind the application's web view (V8, JavaScriptCore) only ever
    ask [comparefn(later, earlier) < 0] and move the later element forward
    on a yes.  The model is the insertion sort with that one question; for
    a comparator that answers it as a strict weak order, every stable sort
    gives the same array. *)
Definition array_sort (arr : list A) : list A :=
  fold_left (fun prefix pivot => sort_insert pivot prefix) arr [].

End ArraySort.

(** ** hooks/useTasks.ts *)

Definition PRIORITY_WEIGHT (p : Priority) : Z :=
  match p with
  | High => 3
  | Medium => 2
  | Low => 1
  end.

(** The arrow function handed to [sorted.sort] in [sortTasks]. *)
Definition comparator (sortOption : SortOption) (a b : Task) : Z :=
  match sortOption with
  | CreatedDesc => localeCompare (created b) (created a)
  | CreatedAsc => localeCompare (created a) (created b)
  | UpdatedDesc => localeCompare (updated b) (updated a)
  | UpdatedAsc => localeCompare (updated a) (updated b)
  | DueAsc =>
      if (due a =? "-")%string then 1
      else if (due b =? "-")%string then -1
      else localeCompare (due a) (due b)
  | DueDesc =>
      if (due a =? "-")%string then 1
      else if (due b =? "-")%string then -1
      else localeCompare (due b) (due a)
  | PriorityDesc => PRIORITY_WEIGHT (priority b) - PRIORITY_WEIGHT (priority a)
  | PriorityAsc => PRIORITY_WEIGHT (priority a) - PRIORITY_WEIGHT (priority b)
  end.

Definition sortTasks (tasks : list Task) (sortOption : SortOption) : list Task :=
  array_sort (comparator sortOption) tasks.

(** The state of one [useTasks] instance. *)
Record TaskStore : Type := mkTaskStore {
  tasks : list Task;
  loading : bool;
  error : option string;
  sortOption : SortOption
}.

Definition setTasks (f : list Task -> list Task) (st : TaskStore) : TaskStore :=
  mkTaskStore (f (tasks st)) (loading st) (error st) (sortOption st).

Definition setLoading (b : bool) (st : TaskStore) : TaskStore :=
  mkTaskStore (tasks st) b (error st) (sortOption st).

Definition setError (e : option string) (st : TaskStore) : TaskStore :=
  mkTaskStore (tasks st) (loading st) e (sortOption st).

Definition setSortOption (o : SortOption) (st : TaskStore) : TaskStore :=
  mkTaskStore (tasks st) (loading st) (error st) o.

(** [useState] initial values of [useTasks]. *)
Definition initialTaskStore : TaskStore :=
  mkTaskStore [] false None CreatedDesc.

(** [loadTasks], up to the [await invoke("get_tasks")]. *)
Definition loadTasks_begin (st : TaskStore) : TaskStore :=
  setError None (setLoading true st).

(** [loadTasks], from the settled [get_tasks] on; [so] is the [sortOption]
    the callback closed over. *)
Definition loadTasks_settle (so : SortOption) (r : Response (list Task))
  (st : TaskStore) : TaskStore :=
  match r with
  | Resolved loadedTasks =>
      setLoading false (setTasks (fun _ => sortTasks loadedTasks so) st)
  | Rejected e =>
      setLoading false (setError (Some e) st)
  end.

Definition loadTasks (so : SortOption) (r : Response (list Task))
  (st : TaskStore) : TaskStore :=
  loadTasks_settle so r (loadTasks_begin st).

(** The updater passed to [setTasks] by [saveTask]. *)
Definition replaceTask (updatedTask : Task) (prev : list Task) : list Task :=
  map (fun t => if (filePath t =? filePath updatedTask)%string
                then updatedTask else t) prev.

(** [saveTask], up to the [await invoke("save_task")]: the timestamp [now]
    is what the template literal builds from [new Date()]. *)
Definition saveTask_optimistic (so : SortOption) (now : string) (task : Task)
  (st : TaskStore) : TaskStore :=
  let updatedTask := with_updated now task in
  setTasks (fun prev => sortTasks (replaceTask updatedTask prev) so) st.

(** [saveTask], from the settled [save_task] on: the [catch] block records
    the error and awaits [loadTasks()], whose own settlement is [reload]. *)
Definition saveTask_settle (so : SortOption) (saved : Response unit)
  (reload : Response (list Task)) (st : TaskStore) : TaskStore :=
  match saved with
  | Resolved _ => st
  | Rejected e => loadTasks so reload (setError (Some e) st)
  end.

(** A whole [saveTask] call issued from the render of [st], nothing else
    being scheduled between its two halves. *)
Definition saveTask (now : string) (task : Task) (saved : Response unit)
  (reload : Response (list Task)) (st : TaskStore) : TaskStore :=
  let so := sortOption st in
  saveTask_settle so saved reload (saveTask_optimistic so now task st).

Definition changeSortOption (option : SortOption) (st : TaskStore) : TaskStore :=
  setTasks (fun prev => sortTasks prev option) (setSortOption option st).

(** ** hooks/useGitSync.ts *)

(** How an [async] body ends: it returns or it throws.  State written
    before a throw stays written. *)
Inductive Outcome (A : Type) : Type :=
| Returned (value : A)
| Thrown (reason : string).

Arguments Returned {A} value.
Arguments Thrown {A} reason.

Definition Async (S A : Type) : Type := S -> Outcome A * S.

Definition ret {S A : Type} (a : A) : Async S A :=
  fun s => (Returned a, s).

Definition bind {S A B : Type} (m : Async S A) (k : A -> Async S B) : Async S B :=
  fun s =>
    match m s with
    | (Returned a, s1) => k a s1
    | (Thrown e, s1) => (Thrown e, s1)
    end.

(** A state setter call. *)
Definition modify {S : Type} (f : S -> S) : Async S unit :=
  fun s => (Returned tt, f s).

(** [await p] for an already settled promise. *)
Definition await {S A : Type} (p : Response A) : Async S A :=
  fun s =>
    match p with
    | Resolved a => (Returned a, s)
    | Rejected e => (Thrown e, s)
    end.

(** [try { body } catch (error) { handler }] *)
Definition try_catch {S A : Type} (body : Async S A)
  (handler : string -> Async S A) : Async S A :=
  fun s =>
    match body s with
    | (Returned a, s1) => (Returned a, s1)
    | (Thrown e, s1) => handler e s1
    end.

(** [try { body } finally { cleanup }] *)
Definition try_finally {S A : Type} (body : Async S A)
  (cleanup : Async S unit) : Async S A :=
  fun s =>
    match body s with
    | (o, s1) =>
        match cleanup s1 with
        | (Returned _, s2) => (o, s2)
        | (Thrown e, s2) => (Thrown e, s2)
        end
    end.

Declare Scope async_scope.
Delimit Scope async_scope with async.

Notation "x <- m ;; k" := (bind m (fun x => k))
  (at level 61, m at next level, right associativity) : async_scope.
Notation "m ;; k" := (bind m (fun _ => k))
  (at level 61, right associativity) : async_scope.

(** The state of one [useGitSync] instance. *)
Record GitSync : Type := mkGitSync {
  isGitRepo : bool;
  branches : list string;
  currentBranch : string;
  isSyncing : bool;
  lastSyncResult : option SyncResult;
  isChecking : bool
}.

Definition initialGitSync : GitSync :=
  mkGitSync false [] EmptyString false None true.

Definition setIsGitRepo (b : bool) (g : GitSync) : GitSync :=
  mkGitSync b (branches g) (currentBranch g) (isSyncing g)
            (lastSyncResult g) (isChecking g).

Definition setBranches (l : list string) (g : GitSync) : GitSync :=
  mkGitSync (isGitRepo g) l (currentBranch g) (isSyncing g)
            (lastSyncResult g) (isChecking g).

Definition setCurrentBranch (c : string) (g : GitSync) : GitSync :=
  mkGitSync (isGitRepo g) (branches g) c (isSyncing g)
            (lastSyncResult g) (isChecking g).

Definition setIsSyncing (b : bool) (g : GitSync) : GitSync :=
  mkGitSync (isGitRepo g) (branches g) (currentBranch g) b
            (lastSyncResult g) (isChecking g).

Definition setLastSyncResult (r : option SyncResult) (g : GitSync) : GitSync :=
  mkGitSync (isGitRepo g) (branches g) (currentBranch g) (isSyncing g)
            r (isChecking g).

Definition setIsChecking (b : bool) (g : GitSync) : GitSync :=
  mkGitSync (isGitRepo g) (branches g) (currentBranch g) (isSyncing g)
            (lastSyncResult g) b.

(** [checkGitRepo], [fetchBranches], [fetchCurrentBranch]: each swallows
    the rejection and falls back to a default. *)
Definition checkGitRepo (r : Response bool) : Async GitSync bool :=
  (try_catch
     (result <- await r ;; modify (setIsGitRepo result) ;; ret result)
     (fun _ => modify (setIsGitRepo false) ;; ret false))%async.

Definition fetchBranches (r : Response (list string)) : Async GitSync (list string) :=
  (try_catch
     (result <- await r ;; modify (setBranches result) ;; ret result)
     (fun _ => modify (setBranches []) ;; ret []))%async.

Definition fetchCurrentBranch (r : Response string) : Async GitSync string :=
  (try_catch
     (result <- await r ;; modify (setCurrentBranch result) ;; ret result)
     (fun _ => modify (setCurrentBranch EmptyString) ;; ret EmptyString))%async.

(** The object built in the [catch] block of [sync]; the template literal
    appends the stringified error to the prefix. *)
Definition errorResult (error : string) : SyncResult :=
  mkSyncResult false false false ("同期エラー: " ++ error)%string.

(** [sync], up to the [await invoke("git_sync")]. *)
Definition sync_begin : Async GitSync unit :=
  (modify (setIsSyncing true) ;; modify (setLastSyncResult None))%async.

(** [sync], from the settled [git_sync] on. *)
Definition sync_settle (r : Response SyncResult) : Async GitSync SyncResult :=
  (try_finally
     (try_catch
        (result <- await r ;;
         modify (setLastSyncResult (Some result)) ;;
         ret result)
        (fun error =>
           modify (setLastSyncResult (Some (errorResult error))) ;;
           ret (errorResult error)))
     (modify (setIsSyncing false)))%async.

(** A whole [sync(branch)] call; the branch and the folder only travel to
    the backend, whose answer is [r]. *)
Definition sync (r : Response SyncResult) : Async GitSync SyncResult :=
  (sync_begin ;; sync_settle r)%async.

(** ** components/KanbanBoard.tsx *)

Definition STATUSES : list Status := [NotStarted; InProgress; Done].

Definition DEFAULT_GIT_SETTINGS : GitSettings := mkGitSettings "main".

(** Who called [handleSync]: the auto-sync effect or the sync button. *)
Inductive Trigger : Type := Auto | Manual.

(** The state of one mounted [KanbanBoard]: the two hooks, its own
    [useState] cells and the [initialSyncDone] ref; then the surroundings
    the handlers act on: the clock in milliseconds, the deadlines of the
    pending [() => setSyncMessage(null)] timeouts, and two logs that record
    every [handleSync] invocation and every [sync(branch)] call. *)
Record Board : Type := mkBoard {
  store : TaskStore;
  git : GitSync;
  localTasks : list Task;
  draggingTask : option Task;
  originalStatus : option Status;
  gitSettings : GitSettings;
  syncMessage : option string;
  initialSyncDone : bool;
  clock : N;
  timers : list N;
  handleSyncLog : list Trigger;
  syncCalls : list string
}.

Definition onStore (f : TaskStore -> TaskStore) (b : Board) : Board :=
  mkBoard (f (store b)) (git b) (localTasks b) (draggingTask b)
          (originalStatus b) (gitSettings b) (syncMessage b)
          (initialSyncDone b) (clock b) (timers b) (handleSyncLog b)
          (syncCalls b).

Definition onGit (f : GitSync -> GitSync) (b : Board) : Board :=
  mkBoard (store b) (f (git b)) (localTasks b) (draggingTask b)
          (originalStatus b) (gitSettings b) (syncMessage b)
          (initialSyncDone b) (clock b) (timers b) (handleSyncLog b)
          (syncCalls b).

Definition setLocalTasks (f : list Task -> list Task) (b : Board) : Board :=
  mkBoard (store b) (git b) (f (localTasks b)) (draggingTask b)
          (originalStatus b) (gitSettings b) (syncMessage b)
          (initialSyncDone b) (clock b) (timers b) (handleSyncLog b)
          (syncCalls b).

Definition setDraggingTask (t : option Task) (b : Board) : Board :=
  mkBoard (store b) (git b) (localTasks b) t
          (originalStatus b) (gitSettings b) (syncMessage b)
          (initialSyncDone b) (clock b) (timers b) (handleSyncLog b)
          (syncCalls b).

Definition setOriginalStatus (s : option Status) (b : Board) : Board :=
  mkBoard (store b) (git b) (localTasks b) (draggingTask b)
          s (gitSettings b) (syncMessage b)
          (initialSyncDone b) (clock b) (timers b) (handleSyncLog b)
          (syncCalls b).

Definition setGitSettings (g : GitSettings) (b : Board) : Board :=
  mkBoard (store b) (git b) (localTasks b) (draggingTask b)
          (originalStatus b) g (syncMessage b)
          (initialSyncDone b) (clock b) (timers b) (handleSyncLog b)
          (syncCalls b).

Definition setSyncMessage (m : option string) (b : Board) : Board :=
  mkBoard (store b) (git b) (localTasks b) (draggingTask b)
          (originalStatus b) (gitSettings b) m
          (initialSyncDone b) (clock b) (timers b) (handleSyncLog b)
          (syncCalls b).

Definition setInitialSyncDone (d : bool) (b : Board) : Board :=
  mkBoard (store b) (git b) (localTasks b) (draggingTask b)
          (originalStatus b) (gitSettings b) (syncMessage b)
          d (clock b) (timers b) (handleSyncLog b)
          (syncCalls b).

Definition setClock (c : N) (b : Board) : Board :=
  mkBoard (store b) (git b) (localTasks b) (draggingTask b)
          (originalStatus b) (gitSettings b) (syncMessage b)
          (initialSyncDone b) c (timers b) (handleSyncLog b)
          (syncCalls b).

Definition setTimers (l : list N) (b : Board) : Board :=
  mkBoard (store b) (git b) (localTasks b) (draggingTask b)
          (originalStatus b) (gitSettings b) (syncMessage b)
          (initialSyncDone b) (clock b) l (handleSyncLog b)
          (syncCalls b).

Definition logHandleSync (t : Trigger) (b : Board) : Board :=
  mkBoard (store b) (git b) (localTasks b) (draggingTask b)
          (originalStatus b) (gitSettings b) (syncMessage b)
          (initialSyncDone b) (clock b) (timers b) (handleSyncLog b ++ [t])
          (syncCalls b).

Definition logSyncCall (branch : string) (b : Board) : Board :=
  mkBoard (store b) (git b) (localTasks b) (draggingTask b)
          (originalStatus b) (gitSettings b) (syncMessage b)
          (initialSyncDone b) (clock b) (timers b) (handleSyncLog b)
          (syncCalls b ++ [branch]).

(** [useEffect(() => { setLocalTasks(tasks); }, [tasks])]: it runs after
    every commit that gave [tasks] a new array. *)
Definition tasksEffect (b : Board) : Board :=
  setLocalTasks (fun _ => tasks (store b)) b.

(** [localTasks.find((t) => t.filePath === id)] *)
Definition findTask (id : string) (l : list Task) : option Task :=
  find (fun t => (filePath t =? id)%string) l.

(** [prev.map((t) => t.filePath === id ? { ...t, status: s } : t)] *)
Definition reassign (id : string) (s : Status) (l : list Task) : list Task :=
  map (fun t => if (filePath t =? id)%string then with_status s t else t) l.

Definition handleDragStart (activeId : string) (b : Board) : Board :=
  match findTask activeId (localTasks b) with
  | Some task => setOriginalStatus (Some (status task)) (setDraggingTask (Some task) b)
  | None => b
  end.

Definition getStatusFromOverId (localTasks : list Task) (overId : string)
  : option Status :=
  match find (fun s => (status_name s =? overId)%string) STATUSES with
  | Some s => Some s
  | None =>
      match findTask overId localTasks with
      | Some overTask => Some (status overTask)
      | None => None
      end
  end.

(** [currentOriginalStatus !== newStatus], the left side possibly [null]. *)
Definition differs (orig : option Status) (newStatus : Status) : bool :=
  match orig with
  | Some s => negb (Status_eqb s newStatus)
  | None => true
  end.

(** [handleDragEnd], up to its only [await]: the next board and the
    argument of the [saveTask] call it makes, if it makes one. *)
Definition handleDragEnd (activeId : string) (over : option string) (b : Board)
  : Board * option Task :=
  let currentOriginalStatus := originalStatus b in
  let b1 := setOriginalStatus None (setDraggingTask None b) in
  match over with
  | None =>
      match currentOriginalStatus with
      | Some s => (setLocalTasks (reassign activeId s) b1, None)
      | None => (b1, None)
      end
  | Some overId =>
      match findTask activeId (localTasks b) with
      | None => (b1, None)
      | Some task =>
          match getStatusFromOverId (localTasks b) overId with
          | Some newStatus =>
              if differs currentOriginalStatus newStatus
              then (b1, Some (with_status newStatus task))
              else (b1, None)
          | None => (b1, None)
          end
      end
  end.

Definition handleDragOver (activeId : string) (over : option string) (b : Board)
  : Board :=
  match over with
  | None => b
  | Some overId =>
      match getStatusFromOverId (localTasks b) overId with
      | Some newStatus =>
          setLocalTasks
            (fun prev =>
               match findTask activeId prev with
               | Some currentTask =>
                   if Status_eqb (status currentTask) newStatus then prev
                   else reassign activeId newStatus prev
               | None => reassign activeId newStatus prev
               end) b
      | None => b
      end
  end.

(** The [saveTask] of the render of [b], first half, with the commit that
    follows it: [tasks] is a new array, so [tasksEffect] runs. *)
Definition board_saveTask_optimistic (now : string) (task : Task) (b : Board) : Board :=
  tasksEffect (onStore (saveTask_optimistic (sortOption (store b)) now task) b).

(** Second half: nothing on success; on failure the reload, which gives
    [tasks] a new array only when it succeeds. *)
Definition board_saveTask_settle (so : SortOption) (saved : Response unit)
  (reload : Response (list Task)) (b : Board) : Board :=
  let b' := onStore (saveTask_settle so saved reload) b in
  match saved, reload with
  | Rejected _, Resolved _ => tasksEffect b'
  | _, _ => b'
  end.

(** A whole drag end: the handler, then the [saveTask] it awaits. *)
Definition dragEnd (activeId : string) (over : option string) (now : string)
  (saved : Response unit) (reload : Response (list Task)) (b : Board) : Board :=
  match handleDragEnd activeId over b with
  | (b1, Some updatedTask) =>
      board_saveTask_settle (sortOption (store b1)) saved reload
        (board_saveTask_optimistic now updatedTask b1)
  | (b1, None) => b1
  end.

(** The pointer-over events of one drag, in order: each carries the id the
    collision detection reports, if any. *)
Definition dragOvers (activeId : string) (overs : list (option string)) (b : Board)
  : Board :=
  fold_left (fun b over => handleDragOver activeId over b) overs b.

(** [handleBranchChange]; the write to [localStorage] and the dropdown
    flag are outside the record. *)
Definition handleBranchChange (branch : string) (b : Board) : Board :=
  setGitSettings (mkGitSettings branch) b.

(** Running the synchronous part of a [useGitSync] body on the board. *)
Definition runGit {A : Type} (m : Async GitSync A) (b : Board) : Outcome A * Board :=
  match m (git b) with
  | (o, g) => (o, onGit (fun _ => g) b)
  end.

(** [handleSync], up to [await sync(gitSettings.syncBranch)]: the guard,
    the message reset and the first half of [sync]. *)
Definition handleSync_begin (t : Trigger) (b : Board) : Board :=
  let b0 := logHandleSync t b in
  if negb (isGitRepo (git b)) || isSyncing (git b) then b0
  else
    let b1 := setSyncMessage None b0 in
    let b2 := logSyncCall (syncBranch (gitSettings b)) b1 in
    snd (runGit sync_begin b2).

(** [setTimeout(() => setSyncMessage(null), 3000)] *)
Definition armTimer (b : Board) : Board :=
  setTimers (timers b ++ [(clock b + 3000)%N]) b.

(** [handleSync], from the settled [git_sync] to its next [await] or its
    end: the second half of [sync], the message, then either the reload is
    started or the timeout is armed. *)
Definition handleSync_afterSync (r : Response SyncResult) (b : Board) : Board :=
  match runGit (sync_settle r) b with
  | (Returned result, b1) =>
      let b2 := setSyncMessage (Some (message result)) b1 in
      if pulled result then onStore loadTasks_begin b2
      else armTimer b2
  | (Thrown _, b1) => b1
  end.

(** [handleSync], from the settled reload to its end. *)
Definition handleSync_afterReload (so : SortOption) (r : Response (list Task))
  (b : Board) : Board :=
  let b1 := onStore (loadTasks_settle so r) b in
  let b2 := match r with
            | Resolved _ => tasksEffect b1
            | Rejected _ => b1
            end in
  armTimer b2.

(** The clock moves on by [dt] milliseconds; every timeout whose deadline
    is reached runs its callback and leaves the queue. *)
Definition elapse (dt : N) (b : Board) : Board :=
  let now := (clock b + dt)%N in
  let due_now := filter (fun d => (d <=? now)%N) (timers b) in
  let pending := filter (fun d => negb (d <=? now)%N) (timers b) in
  let b1 := setTimers pending (setClock now b) in
  match due_now with
  | [] => b1
  | _ :: _ => setSyncMessage None b1
  end.

(** The auto-sync effect, deps [isChecking, isGitRepo, handleSync]. *)
Definition autoSyncEffect (b : Board) : Board :=
  if negb (isChecking (git b)) && isGitRepo (git b) && negb (initialSyncDone b)
  then handleSync_begin Auto (setInitialSyncDone true b)
  else b.

(** What can happen to a mounted board between two renders. *)
Inductive Event : Type :=
| InitBegin
| CheckGitRepoSettled (r : Response bool)
| FetchBranchesSettled (r : Response (list string))
| FetchCurrentBranchSettled (r : Response string)
| FetchesDone
| ClickSync
| BranchChange (branch : string)
| GitSyncSettled (r : Response SyncResult)
| ReloadSettled (so : SortOption) (r : Response (list Task))
| SortChange (option : SortOption)
| Elapse (dt : N)
| TasksSettled (so : SortOption) (r : Response (list Task)).

(** The handler of each event.  The [init] function of [useGitSync] is cut
    at its awaits: [InitBegin] raises [isChecking]; the settled repository
    check lowers it at once when the folder is no repository; otherwise the
    two fetches settle and [FetchesDone] lowers it.  [ReloadSettled] is the
    reload awaited by [handleSync], [TasksSettled] a [loadTasks] started by
    the load effect; each carries the [sortOption] its [loadTasks] closed
    over.  A sort change that picks another option gives [loadTasks] a new
    identity, so the load effect, whose only dep it is, starts a reload in
    the same commit. *)
Definition handle (e : Event) (b : Board) : Board :=
  match e with
  | InitBegin => onGit (setIsChecking true) b
  | CheckGitRepoSettled r =>
      match runGit (checkGitRepo r) b with
      | (Returned true, b1) => b1
      | (_, b1) => onGit (setIsChecking false) b1
      end
  | FetchBranchesSettled r => snd (runGit (fetchBranches r) b)
  | FetchCurrentBranchSettled r => snd (runGit (fetchCurrentBranch r) b)
  | FetchesDone => onGit (setIsChecking false) b
  | ClickSync => handleSync_begin Manual b
  | BranchChange branch => handleBranchChange branch b
  | GitSyncSettled r => handleSync_afterSync r b
  | ReloadSettled so r => handleSync_afterReload so r b
  | SortChange option =>
      let b1 := tasksEffect (onStore (changeSortOption option) b) in
      if SortOption_eqb option (sortOption (store b)) then b1
      else onStore loadTasks_begin b1
  | Elapse dt => elapse dt b
  | TasksSettled so r =>
      let b1 := onStore (loadTasks_settle so r) b in
      match r with
      | Resolved _ => tasksEffect b1
      | Rejected _ => b1
      end
  end.

(** One commit: the handler, then the auto-sync effect.  The effect is
    guarded by the ref, so running it after every commit is the same as
    running it when its deps changed. *)
Definition step (b : Board) (e : Event) : Board :=
  autoSyncEffect (handle e b).

Definition run (events : list Event) (b : Board) : Board :=
  fold_left step events b.

(** A freshly mounted board: the initial state cells, the settings read
    from [localStorage] (or the default), the first [loadTasks] and the
    repository check both in flight. *)
Definition mountBoard (saved : option GitSettings) (now : N) : Board :=
  mkBoard (loadTasks_begin initialTaskStore) initialGitSync [] None None
          (match saved with Some g => g | None => DEFAULT_GIT_SETTINGS end)
          None false now [] [] [].

Definition isAuto (t : Trigger) : bool :=
  match t with Auto => true | Manual => false end.

(** How many times the auto-sync effect has called [handleSync]. *)
Definition autoSyncCount (b : Board) : nat :=
  List.length (filter isAuto (handleSyncLog b)).

(** ** Vocabulary of the properties *)

(** The one question the sort asks: does [y], which stands later, have to
    move in front of [x]? *)
Definition precedes {A : Type} (comparefn : A -> A -> Z) (y x : A) : bool :=
  comparefn y x <? 0.

(** A strict weak order, as a boolean relation. *)
Record StrictWeak {A : Type} (lt : A -> A -> bool) : Prop := mkStrictWeak {
  sw_irrefl : forall a, lt a a = false;
  sw_trans : forall a b c, lt a b = true -> lt b c = true -> lt a c = true;
  sw_ntrans : forall a b c, lt a b = false -> lt b c = false -> lt a c = false
}.

(** No element has to move in front of an earlier one. *)
Definition ordered {A : Type} (comparefn : A -> A -> Z) (l : list A) : Prop :=
  StronglySorted (fun x y => precedes comparefn y x = false) l.

(** Neither of two elements has to move in front of the other. *)
Definition tie {A : Type} (comparefn : A -> A -> Z) (a b : A) : bool :=
  negb (precedes comparefn a b) && negb (precedes comparefn b a).

(** Two tasks have the same value of the key the option sorts on. *)
Definition same_key (o : SortOption) (a b : Task) : bool :=
  match o with
  | CreatedDesc | CreatedAsc => (created a =? created b)%string
  | UpdatedDesc | UpdatedAsc => (updated a =? updated b)%string
  | DueAsc | DueDesc => (due a =? due b)%string
  | PriorityDesc | PriorityAsc => Priority_eqb (priority a) (priority b)
  end.

(** The comparator calls two tasks equal. *)
Definition compares_equal (o : SortOption) (a b : Task) : bool :=
  comparator o a b =? 0.

(** An ASCII digit. *)
Definition isDigit (c : ascii) : bool :=
  (48 <=? nat_of_ascii c)%nat && (nat_of_ascii c <=? 57)%nat.

(** The string has the shape of the pattern: a digit wherever the pattern
    has a ["0"], the pattern's own character elsewhere, and the same
    length. *)
Fixpoint fits (pattern s : string) : bool :=
  match pattern, s with
  | EmptyString, EmptyString => true
  | String p pattern', String c s' =>
      (if Ascii.eqb p "0" then isDigit c else Ascii.eqb p c) && fits pattern' s'
  | _, _ => false
  end.

(** A due date as the date picker writes it, [yyyy-MM-dd]. *)
Definition isoDate (s : string) : bool := fits "0000-00-00" s.

(** A timestamp as [saveTask] and [handleCreateTask] build it,
    [YYYY-MM-DD-HH:MM]. *)
Definition isTimestamp (s : string) : bool := fits "0000-00-00-00:00" s.

(** What the due options promise about a task [a] standing before a task
    [b]: an unset due date is never in front of a set one, whatever the set
    one holds, and two ISO dates are in lexical order, read in the
    direction of the option. *)
Definition due_order (o : SortOption) (a b : Task) : Prop :=
  (due a = "-"%string -> due b = "-"%string) /\
  (isoDate (due a) = true -> isoDate (due b) = true ->
   match o with
   | DueDesc => String.leb (due b) (due a) = true
   | _ => String.leb (due a) (due b) = true
   end).

(** The overlay shows exactly the canonical collection. *)
Definition mirrors_canonical (b : Board) : Prop :=
  localTasks b = tasks (store b).

(** The drag-and-drop coordinator is idle. *)
Definition idle (b : Board) : Prop :=
  draggingTask b = None /\ originalStatus b = None.


(** The guard of [handleSync] passes. *)
Definition guard_passes (b : Board) : bool :=
  negb (negb (isGitRepo (git b)) || isSyncing (git b)).

(** The auto-sync effect fires. *)
Definition fires (b : Board) : bool :=
  negb (isChecking (git b)) && isGitRepo (git b) && negb (initialSyncDone b).

(** The events whose handler neither touches the message nor calls
    [sync]. *)
Definition quiet (e : Event) : bool :=
  match e with
  | ClickSync | GitSyncSettled _ | Elapse _ => false
  | _ => true
  end.

(** The ledger of the single-shot flag: while the ref is unset the effect
    has not called [handleSync]; once it is set it has called it once. *)
Definition single_shot (b : Board) : Prop :=
  autoSyncCount b = if initialSyncDone b then 1%nat else 0%nat.

(** ** Sample data *)

(** A task that differs from the blank one in the fields the sort and the
    board read. *)
Definition sample (path due_ : string) (p : Priority) : Task :=
  mkTask path "" "2026-01-01-09:00" "2026-01-01-09:00" NotStarted p due_ "-" [] "".

Definition sampleTasks : list Task :=
  [sample "a.md" "2026-03-01" Low; sample "b.md" "-" High].

(** A store that holds [sampleTasks], idle, sorted by the default option. *)
Definition sampleStore : TaskStore :=
  mkTaskStore (sortTasks sampleTasks CreatedDesc) false None CreatedDesc.

(** A board over [sampleStore] in a repository, detection finished, the
    overlay in step with the store, nothing being dragged. *)
Definition sampleBoard : Board :=
  mkBoard sampleStore (mkGitSync true ["main"%string] "main" false None false)
          (tasks sampleStore) None None DEFAULT_GIT_SETTINGS None true
          0%N [] [] [].

(** The detection sequence of a folder that is a repository, every call
    answered. *)
Definition readyEvents : list Event :=
  [CheckGitRepoSettled (Resolved true);
   FetchBranchesSettled (Resolved ["main"%string]);
   FetchCurrentBranchSettled (Resolved "main"%string);
   FetchesDone].

Definition pushedResult : SyncResult := mkSyncResult false true false "pushed".

Definition pulledResult : SyncResult := mkSyncResult true false false "pulled".

(** What [sync] hands back for a settled [git_sync]. *)
Definition resultOf (r : Response SyncResult) : SyncResult :=
  match r with
  | Resolved v => v
  | Rejected e => errorResult e
  end.

(** ** hooks/useTasks.ts: creation, deletion and the store as a machine *)

(** [createTask]: the backend mints the task; on success a full
    [loadTasks()], whose settlement is [reload]; on failure only the error
    is recorded.  The minted task itself is not used. *)
Definition createTask (so : SortOption) (created : Response Task)
  (reload : Response (list Task)) (st : TaskStore) : TaskStore :=
  match created with
  | Resolved _ => loadTasks so reload st
  | Rejected e => setError (Some e) st
  end.

(** [deleteTask]: the same shape around [delete_task]. *)
Definition deleteTask (so : SortOption) (deleted : Response unit)
  (reload : Response (list Task)) (st : TaskStore) : TaskStore :=
  match deleted with
  | Resolved _ => loadTasks so reload st
  | Rejected e => setError (Some e) st
  end.

(** What the callbacks of [useTasks] do to the store, one event per
    settled call; [saveTask] in its two halves.  Each carries the
    [sortOption] its callback closed over, which may be a stale one. *)
Inductive StoreEvent : Type :=
| ELoad (so : SortOption) (r : Response (list Task))
| ESaveOptimistic (so : SortOption) (now : string) (task : Task)
| ESaveSettled (so : SortOption) (saved : Response unit) (reload : Response (list Task))
| ECreate (so : SortOption) (created : Response Task) (reload : Response (list Task))
| EDelete (so : SortOption) (deleted : Response unit) (reload : Response (list Task))
| EChangeSort (option : SortOption).

Definition storeStep (st : TaskStore) (e : StoreEvent) : TaskStore :=
  match e with
  | ELoad so r => loadTasks so r st
  | ESaveOptimistic so now task => saveTask_optimistic so now task st
  | ESaveSettled so saved reload => saveTask_settle so saved reload st
  | ECreate so created reload => createTask so created reload st
  | EDelete so deleted reload => deleteTask so deleted reload st
  | EChangeSort option => changeSortOption option st
  end.

Definition storeRun (events : list StoreEvent) (st : TaskStore) : TaskStore :=
  fold_left storeStep events st.

(** The list a [get_tasks] answer inside the event hands to [setTasks],
    if the event gets that far. *)
Definition delivered (e : StoreEvent) : option (list Task) :=
  match e with
  | ELoad _ (Resolved l) => Some l
  | ESaveSettled _ (Rejected _) (Resolved l) => Some l
  | ECreate _ (Resolved _) (Resolved l) => Some l
  | EDelete _ (Resolved _) (Resolved l) => Some l
  | _ => None
  end.

(** No two tasks of the list share a [filePath]. *)
Definition uniqueKeys (l : list Task) : Prop :=
  NoDup (map filePath l).

(** Every list the backend delivers during the events has unique keys. *)
Definition backend_unique (events : list StoreEvent) : Prop :=
  Forall (fun e => forall l, delivered e = Some l -> uniqueKeys l) events.

(** What each option promises about a task [a] standing before a task
    [b]: for the timestamp options, when both timestamps have the fixed
    shape, their lexical order in the option's direction. *)
Definition key_order (o : SortOption) (a b : Task) : Prop :=
  match o with
  | CreatedDesc =>
      isTimestamp (created a) = true -> isTimestamp (created b) = true ->
      String.leb (created b) (created a) = true
  | CreatedAsc =>
      isTimestamp (created a) = true -> isTimestamp (created b) = true ->
      String.leb (created a) (created b) = true
  | UpdatedDesc =>
      isTimestamp (updated a) = true -> isTimestamp (updated b) = true ->
      String.leb (updated b) (updated a) = true
  | UpdatedAsc =>
      isTimestamp (updated a) = true -> isTimestamp (updated b) = true ->
      String.leb (updated a) (updated b) = true
  | DueAsc | DueDesc => due_order o a b
  | PriorityDesc => PRIORITY_WEIGHT (priority b) <= PRIORITY_WEIGHT (priority a)
  | PriorityAsc => PRIORITY_WEIGHT (priority a) <= PRIORITY_WEIGHT (priority b)
  end.

(** ** components/KanbanBoard.tsx: the columns *)

(** [localTasks.filter((task) => task.status === status)] *)
Definition getTasksByStatus (s : Status) (b : Board) : list Task :=
  filter (fun task => Status_eqb (status task) s) (localTasks b).

(** The three columns as rendered, left to right. *)
Definition columns (b : Board) : list (list Task) :=
  map (fun s => getTasksByStatus s b) STATUSES.

(** A pointer-over or drop target the board can resolve. *)
Definition resolvable (over : option string) (b : Board) : Prop :=
  match over with
  | None => True
  | Some overId => getStatusFromOverId (localTasks b) overId <> None
  end.

(** During a drag of [task] out of the list [l]: the original status is
    on record and the overlay is [l] with the dragged task given some
    status. *)
Definition recoloured (activeId : string) (task : Task) (l : list Task)
  (b : Board) : Prop :=
  originalStatus b = Some (status task) /\
  exists s, localTasks b = reassign activeId s l /\
            findTask activeId (localTasks b) = Some (with_status s task).

(** The events whose repository check says: this folder is a repository. *)
Definition repoConfirmed (e : Event) : bool :=
  match e with
  | CheckGitRepoSettled (Resolved true) => true
  | _ => false
  end.

Definition isGitSyncSettled (e : Event) : bool :=
  match e with
  | GitSyncSettled _ => true
  | _ => false
  end.

(** ** App.tsx *)

(** The root component: its two state cells and the item it keeps in
    [localStorage] under [STORAGE_KEY]. *)
Record App : Type := mkApp {
  selectedFolder : option string;
  isInitialized : bool;
  lastFolder : option string
}.

(** JavaScript truthiness of a [string | null]. *)
Definition truthy (s : option string) : bool :=
  match s with
  | None => false
  | Some EmptyString => false
  | Some (String _ _) => true
  end.

(** The first render and the mount effect, over what [localStorage]
    holds. *)
Definition mountApp (stored : option string) : App :=
  mkApp (if truthy stored then stored else None) true stored.

Definition handleFolderSelect (folderPath : string) (a : App) : App :=
  mkApp (Some folderPath) (isInitialized a) (Some folderPath).

Definition handleBackToHome (a : App) : App :=
  mkApp None (isInitialized a) None.

(** What [App] returns. *)
Inductive Screen : Type :=
| Blank
| HomeScreen
| BoardScreen (folderPath : string).

Definition render (a : App) : Screen :=
  if negb (isInitialized a) then Blank
  else
    match selectedFolder a with
    | Some folderPath =>
        if truthy (Some folderPath) then BoardScreen folderPath else HomeScreen
    | None => HomeScreen
    end.

Inductive AppEvent : Type :=
| FolderSelect (folderPath : string)
| BackToHome.

Definition appStep (a : App) (e : AppEvent) : App :=
  match e with
  | FolderSelect folderPath => handleFolderSelect folderPath a
  | BackToHome => handleBackToHome a
  end.

Definition appRun (events : list AppEvent) (a : App) : App :=
  fold_left appStep events a.

(** ** components/TaskModal.tsx *)

(** The two state cells of the modal.  Its handlers are defined below the
    early [return null], so they only ever run with a task in
    [editedTask]. *)
Record TaskModal : Type := mkTaskModal {
  editedTask : option Task;
  newSubTask : string
}.

(** The calls of [updateField] the form makes: one per editable field. *)
Inductive FieldUpdate : Type :=
| TitleField (value : string)
| StatusField (value : Status)
| PriorityField (value : Priority)
| DueField (value : string)
| AssigneeField (value : string)
| SubTasksField (value : list SubTask)
| MemoField (value : string).

(** [{ ...prev, [field]: value }] *)
Definition setField (u : FieldUpdate) (t : Task) : Task :=
  match u with
  | TitleField v =>
      mkTask (filePath t) v (created t) (updated t) (status t) (priority t)
             (due t) (assignee t) (subTasks t) (memo t)
  | StatusField v =>
      mkTask (filePath t) (title t) (created t) (updated t) v (priority t)
             (due t) (assignee t) (subTasks t) (memo t)
  | PriorityField v =>
      mkTask (filePath t) (title t) (created t) (updated t) (status t) v
             (due t) (assignee t) (subTasks t) (memo t)
  | DueField v =>
      mkTask (filePath t) (title t) (created t) (updated t) (status t) (priority t)
             v (assignee t) (subTasks t) (memo t)
  | AssigneeField v =>
      mkTask (filePath t) (title t) (created t) (updated t) (status t) (priority t)
             (due t) v (subTasks t) (memo t)
  | SubTasksField v =>
      mkTask (filePath t) (title t) (created t) (updated t) (status t) (priority t)
             (due t) (assignee t) v (memo t)
  | MemoField v =>
      mkTask (filePath t) (title t) (created t) (updated t) (status t) (priority t)
             (due t) (assignee t) (subTasks t) v
  end.

Definition updateField (u : FieldUpdate) (m : TaskModal) : TaskModal :=
  mkTaskModal (option_map (setField u) (editedTask m)) (newSubTask m).

Definition setNewSubTask (v : string) (m : TaskModal) : TaskModal :=
  mkTaskModal (editedTask m) v.

(** [arr.filter((x, i) => p(x, i))], the index counted from [i]. *)
Fixpoint filter_index {A : Type} (p : A -> nat -> bool) (i : nat) (arr : list A)
  : list A :=
  match arr with
  | [] => []
  | x :: rest =>
      if p x i then x :: filter_index p (S i) rest
      else filter_index p (S i) rest
  end.

(** [arr.map((x, i) => f(x, i))], the index counted from [i]. *)
Fixpoint map_index {A B : Type} (f : A -> nat -> B) (i : nat) (arr : list A)
  : list B :=
  match arr with
  | [] => []
  | x :: rest => f x i :: map_index f (S i) rest
  end.

(** [addSubTask]; [trim] is [String.prototype.trim]. *)
Definition addSubTask (trim : string -> string) (m : TaskModal) : TaskModal :=
  match editedTask m with
  | None => m
  | Some t =>
      if (trim (newSubTask m) =? "")%string then m
      else
        let newSt := mkSubTask (trim (newSubTask m)) false in
        setNewSubTask "" (updateField (SubTasksField (subTasks t ++ [newSt])) m)
  end.

Definition removeSubTask (index : nat) (m : TaskModal) : TaskModal :=
  match editedTask m with
  | None => m
  | Some t =>
      updateField
        (SubTasksField
           (filter_index (fun _ i => negb (i =? index)%nat) 0 (subTasks t))) m
  end.

(** [{ ...st, completed: !st.completed }] *)
Definition toggled (st : SubTask) : SubTask :=
  mkSubTask (text st) (negb (completed st)).

Definition toggleSubTask (index : nat) (m : TaskModal) : TaskModal :=
  match editedTask m with
  | None => m
  | Some t =>
      updateField
        (SubTasksField
           (map_index (fun st i => if (i =? index)%nat then toggled st else st)
                      0 (subTasks t))) m
  end.

(** What the user can do inside the modal, short of saving or closing. *)
Inductive ModalEvent : Type :=
| Edit (u : FieldUpdate)
| TypeSubTask (value : string)
| AddSubTask
| RemoveSubTask (index : nat)
| ToggleSubTask (index : nat).

Definition modalStep (trim : string -> string) (m : TaskModal) (e : ModalEvent)
  : TaskModal :=
  match e with
  | Edit u => updateField u m
  | TypeSubTask v => setNewSubTask v m
  | AddSubTask => addSubTask trim m
  | RemoveSubTask i => removeSubTask i m
  | ToggleSubTask i => toggleSubTask i m
  end.

Definition modalRun (trim : string -> string) (events : list ModalEvent)
  (m : TaskModal) : TaskModal :=
  fold_left (modalStep trim) events m.

(** The sub-tasks the modal is showing. *)
Definition shownSubTasks (m : TaskModal) : list SubTask :=
  match editedTask m with
  | Some t => subTasks t
  | None => []
  end.

(** A stand-in for [trim] that strips nothing, for concrete runs. *)
Definition noTrim (s : string) : string := s.

Definition sampleModal : TaskModal :=
  mkTaskModal
    (Some (mkTask "a.md" "write" "2026-01-01-09:00" "2026-01-01-09:00" NotStarted
                  Low "-" "-" [mkSubTask "draft" true; mkSubTask "review" false] ""))
    "publish".

(* ================================================================== *)
(** * Part II: properties                                              *)
(* ================================================================== *)

(** ** Strings *)

Lemma ascii_compare_refl (c : ascii) : Ascii.compare c c = Eq.
Proof. unfold Ascii.compare. apply N.compare_refl. Qed.

Lemma ascii_compare_lt_trans (a b c : ascii) :
  Ascii.compare a b = Lt -> Ascii.compare b c = Lt -> Ascii.compare a c = Lt.
Proof.
  unfold Ascii.compare. rewrite !N.compare_lt_iff. lia.
Qed.

Lemma string_compare_refl (s : string) : String.compare s s = Eq.
Proof.
  induction s as [|c s IH]; simpl; [reflexivity|].
  now rewrite ascii_compare_refl.
Qed.

Lemma string_compare_lt_trans (a b c : string) :
  String.compare a b = Lt -> String.compare b c = Lt -> String.compare a c = Lt.
Proof.
  revert b c. induction a as [|x a IH]; intros [|y b] [|z c]; simpl;
    try congruence.
  destruct (Ascii.compare x y) eqn:Hxy; try discriminate;
  destruct (Ascii.compare y z) eqn:Hyz; try discriminate; intros H1 H2.
  - apply Ascii.compare_eq_iff in Hxy, Hyz. subst.
    rewrite ascii_compare_refl. eauto.
  - apply Ascii.compare_eq_iff in Hxy. subst. now rewrite Hyz.
  - apply Ascii.compare_eq_iff in Hyz. subst. now rewrite Hxy.
  - now rewrite (ascii_compare_lt_trans _ _ _ Hxy Hyz).
Qed.

Lemma string_compare_gt_lt (a b : string) :
  String.compare a b = Gt <-> String.compare b a = Lt.
Proof.
  rewrite (String.compare_antisym b a).
  destruct (String.compare a b); simpl; split; congruence.
Qed.

Lemma string_compare_eq (a b : string) :
  String.compare a b = Eq <-> a = b.
Proof.
  split; [apply String.compare_eq_iff|].
  intros ->. apply string_compare_refl.
Qed.

Lemma precedes_localeCompare (a b : string) :
  precedes localeCompare a b = true <-> String.compare a b = Lt.
Proof.
  unfold precedes, localeCompare.
  destruct (String.compare a b); cbv; split; congruence.
Qed.

Lemma string_leb_not_lt (a b : string) :
  String.leb a b = true <-> String.compare b a <> Lt.
Proof.
  unfold String.leb. rewrite (String.compare_antisym b a).
  destruct (String.compare a b); simpl; split; congruence.
Qed.

(** ** Strict weak orders *)

Lemma StrictWeak_ext {A : Type} (lt lt' : A -> A -> bool) :
  (forall a b, lt a b = lt' a b) -> StrictWeak lt -> StrictWeak lt'.
Proof.
  intros E [I T N]. split; intros *; rewrite <- !E; eauto.
Qed.

Lemma StrictWeak_flip {A : Type} (lt : A -> A -> bool) :
  StrictWeak lt -> StrictWeak (fun a b => lt b a).
Proof.
  intros [I T N]. split; intros; eauto.
Qed.

Lemma StrictWeak_key {A B : Type} (key : A -> B) (lt : B -> B -> bool) :
  StrictWeak lt -> StrictWeak (fun a b => lt (key a) (key b)).
Proof.
  intros [I T N]. split; intros; eauto.
Qed.

Lemma StrictWeak_string : StrictWeak (precedes localeCompare).
Proof.
  split.
  - intros a. destruct (precedes localeCompare a a) eqn:E; [|reflexivity].
    apply precedes_localeCompare in E.
    rewrite string_compare_refl in E. discriminate.
  - intros a b c H1 H2. apply precedes_localeCompare in H1, H2.
    apply precedes_localeCompare. eapply string_compare_lt_trans; eauto.
  - intros a b c H1 H2.
    destruct (precedes localeCompare a c) eqn:E; [|reflexivity].
    apply precedes_localeCompare in E.
    assert (Hab : String.compare a b <> Lt)
      by (intros H; apply precedes_localeCompare in H; congruence).
    assert (Hbc : String.compare b c <> Lt)
      by (intros H; apply precedes_localeCompare in H; congruence).
    exfalso.
    destruct (String.compare a b) eqn:Eab; [|congruence|].
    + apply string_compare_eq in Eab. subst. congruence.
    + apply string_compare_gt_lt in Eab.
      destruct (String.compare b c) eqn:Ebc; [|congruence|].
      * apply string_compare_eq in Ebc. subst.
        pose proof (string_compare_lt_trans _ _ _ Eab E) as H.
        rewrite string_compare_refl in H. discriminate.
      * apply string_compare_gt_lt in Ebc.
        pose proof (string_compare_lt_trans _ _ _ Ebc Eab) as H.
        pose proof (string_compare_lt_trans _ _ _ H E) as H'.
        rewrite string_compare_refl in H'. discriminate.
Qed.

Lemma StrictWeak_weight : StrictWeak (fun a b : Z => a - b <? 0).
Proof.
  split; intros *; rewrite ?Z.ltb_lt, ?Z.ltb_ge; lia.
Qed.

(** Sentinel last: elements marked by [unset] go behind all others, which
    keep their own order. *)
Lemma StrictWeak_sentinel {A : Type} (unset : A -> bool) (lt : A -> A -> bool) :
  StrictWeak lt ->
  StrictWeak (fun a b => if unset a then false else if unset b then true else lt a b).
Proof.
  intros [I T N]. split.
  - intros a. destruct (unset a); auto.
  - intros a b c. destruct (unset a), (unset b), (unset c); eauto; congruence.
  - intros a b c. destruct (unset a), (unset b), (unset c); eauto; congruence.
Qed.

(** ** [Array.prototype.sort] *)

Section SortTheory.
Context {A : Type}.
Variable comparefn : A -> A -> Z.

Lemma sort_insert_perm (x : A) (l : list A) :
  Permutation (sort_insert comparefn x l) (x :: l).
Proof.
  induction l as [|y l IH]; simpl; [reflexivity|].
  destruct (comparefn x y <? 0); [reflexivity|].
  rewrite IH. apply perm_swap.
Qed.

Lemma array_sort_snoc (l : list A) (x : A) :
  array_sort comparefn (l ++ [x]) = sort_insert comparefn x (array_sort comparefn l).
Proof.
  unfold array_sort. now rewrite fold_left_app.
Qed.

Lemma array_sort_perm (l : list A) : Permutation (array_sort comparefn l) l.
Proof.
  induction l as [|x l IH] using rev_ind; [reflexivity|].
  rewrite array_sort_snoc, sort_insert_perm, IH.
  apply Permutation_cons_append.
Qed.

Lemma sort_insert_at_end (x : A) (l : list A) :
  Forall (fun w => precedes comparefn x w = false) l ->
  sort_insert comparefn x l = l ++ [x].
Proof.
  induction 1 as [|w l Hw _ IH]; simpl; [reflexivity|].
  unfold precedes in Hw. now rewrite Hw, IH.
Qed.

Lemma ordered_snoc_inv (l : list A) (x : A) :
  ordered comparefn (l ++ [x]) ->
  ordered comparefn l /\ Forall (fun w => precedes comparefn x w = false) l.
Proof.
  unfold ordered. induction l as [|y l IH]; simpl; intros H.
  - split; constructor.
  - inversion H as [|? ? Hs Hf]; subst.
    destruct (IH Hs) as [Hl Hx].
    apply Forall_app in Hf as [Hf1 Hf2].
    split.
    + now constructor.
    + constructor; [|assumption]. now inversion Hf2.
Qed.

(** Sorting a list that is already in order changes nothing. *)
Lemma array_sort_ordered (l : list A) :
  ordered comparefn l -> array_sort comparefn l = l.
Proof.
  induction l as [|x l IH] using rev_ind; intros H; [reflexivity|].
  apply ordered_snoc_inv in H as [Hl Hx].
  rewrite array_sort_snoc, (IH Hl). now apply sort_insert_at_end.
Qed.

Hypothesis Hsw : StrictWeak (precedes comparefn).

Lemma sort_insert_ordered (x : A) (l : list A) :
  ordered comparefn l -> ordered comparefn (sort_insert comparefn x l).
Proof.
  destruct Hsw as [I T N]. unfold ordered.
  induction 1 as [|y l Hs IH Hf]; simpl.
  - repeat constructor.
  - destruct (comparefn x y <? 0) eqn:E.
    + constructor; [now constructor|].
      constructor.
      * destruct (precedes comparefn y x) eqn:E'; [|reflexivity].
        rewrite <- (I x). symmetry. now apply (T x y x).
      * eapply Forall_impl; [|exact Hf]. simpl. intros z Hz.
        destruct (precedes comparefn z x) eqn:E'; [|reflexivity].
        rewrite <- Hz. symmetry. now apply (T z x y).
    + constructor; [assumption|].
      eapply Permutation_Forall.
      * symmetry. apply sort_insert_perm.
      * now constructor.
Qed.

Lemma array_sort_is_ordered (l : list A) : ordered comparefn (array_sort comparefn l).
Proof.
  induction l as [|x l IH] using rev_ind.
  - constructor.
  - rewrite array_sort_snoc. now apply sort_insert_ordered.
Qed.

Lemma array_sort_idempotent (l : list A) :
  array_sort comparefn (array_sort comparefn l) = array_sort comparefn l.
Proof.
  apply array_sort_ordered, array_sort_is_ordered.
Qed.

(** Elements of one tie class keep their order: the class is given by a
    predicate no two members of which are ever strictly ordered. *)
Variable tied : A -> bool.
Hypothesis Htied :
  forall a b, tied a = true -> tied b = true -> precedes comparefn a b = false.

Lemma sort_insert_filter (x : A) (l : list A) :
  ordered comparefn l ->
  filter tied (sort_insert comparefn x l) = filter tied l ++ filter tied [x].
Proof.
  destruct Hsw as [I T N]. unfold ordered.
  induction 1 as [|y l Hs IH Hf]; [reflexivity|].
  cbn [sort_insert]. destruct (comparefn x y <? 0) eqn:E.
  - destruct (tied x) eqn:Hx.
    + assert (Hnone : Forall (fun z => tied z = false) (y :: l)).
      { constructor.
        - destruct (tied y) eqn:Hy; [|reflexivity].
          pose proof (Htied x y Hx Hy) as H. unfold precedes in H. congruence.
        - eapply Forall_impl; [|exact Hf]. simpl. intros z Hz.
          destruct (tied z) eqn:Hz'; [|reflexivity].
          pose proof (N x z y (Htied x z Hx Hz') Hz) as H.
          unfold precedes in H. congruence. }
      assert (Hnil : filter tied (y :: l) = []).
      { clear -Hnone. induction Hnone as [|z l' Hz _ IH']; [reflexivity|].
        simpl. now rewrite Hz. }
      cbn [filter] in *. rewrite Hx. cbn [filter] in Hnil. rewrite Hnil.
      reflexivity.
    + cbn [filter]. rewrite Hx. now rewrite app_nil_r.
  - cbn [filter]. rewrite IH. now destruct (tied y).
Qed.

Lemma array_sort_filter (l : list A) :
  filter tied (array_sort comparefn l) = filter tied l.
Proof.
  induction l as [|x l IH] using rev_ind; [reflexivity|].
  rewrite array_sort_snoc, sort_insert_filter by apply array_sort_is_ordered.
  now rewrite IH, filter_app.
Qed.

(** Order and stability leave no choice: two lists in order that agree
    on every tie class, taken in sequence, are the same list. *)
Lemma tie_refl (a : A) : tie comparefn a a = true.
Proof. unfold tie. now rewrite (sw_irrefl _ Hsw). Qed.

Lemma ordered_head (x y : A) (l : list A) :
  ordered comparefn (x :: l) -> In y l -> precedes comparefn y x = false.
Proof.
  intros H Hin. inversion H as [|? ? _ Hf]; subst.
  rewrite Forall_forall in Hf. now apply Hf.
Qed.

Lemma ordered_tail (x : A) (l : list A) :
  ordered comparefn (x :: l) -> ordered comparefn l.
Proof. intros H. now inversion H. Qed.

Lemma ordered_stable_unique (l1 l2 : list A) :
  ordered comparefn l1 -> ordered comparefn l2 ->
  (forall a, filter (tie comparefn a) l1 = filter (tie comparefn a) l2) ->
  l1 = l2.
Proof.
  revert l2. induction l1 as [|x l1 IH]; intros [|y l2] H1 H2 Hf.
  - reflexivity.
  - specialize (Hf y). cbn [filter] in Hf. rewrite tie_refl in Hf. discriminate.
  - specialize (Hf x). cbn [filter] in Hf. rewrite tie_refl in Hf. discriminate.
  - assert (Hxy : x = y).
    { destruct (tie comparefn x y) eqn:E.
      - pose proof (Hf x) as Hx. cbn [filter] in Hx.
        rewrite tie_refl, E in Hx. congruence.
      - exfalso.
        assert (Hne : x <> y) by (intros ->; rewrite tie_refl in E; discriminate).
        assert (Hy : In y l1).
        { assert (Hin : In y (filter (tie comparefn y) (x :: l1))).
          { rewrite (Hf y). cbn [filter]. rewrite tie_refl. now left. }
          apply filter_In in Hin as [[Hin|Hin] _]; [contradiction|exact Hin]. }
        assert (Hx : In x l2).
        { assert (Hin : In x (filter (tie comparefn x) (y :: l2))).
          { rewrite <- (Hf x). cbn [filter]. rewrite tie_refl. now left. }
          apply filter_In in Hin as [[Hin|Hin] _]; [congruence|exact Hin]. }
        pose proof (ordered_head _ _ _ H1 Hy) as Lyx.
        pose proof (ordered_head _ _ _ H2 Hx) as Lxy.
        unfold tie in E. rewrite Lyx, Lxy in E. discriminate. }
    subst y. f_equal. apply IH; [eapply ordered_tail; eauto..|].
    intros a. specialize (Hf a). cbn [filter] in Hf.
    destruct (tie comparefn a x); congruence.
Qed.

End SortTheory.

(** Whatever way an engine sorts, if its output is in order for the one
    question and keeps every tie class in input sequence, it is the output
    of [array_sort]. *)
Lemma array_sort_unique {A : Type} (comparefn : A -> A -> Z) (l l' : list A) :
  StrictWeak (precedes comparefn) ->
  ordered comparefn l' ->
  (forall a, filter (tie comparefn a) l' = filter (tie comparefn a) l) ->
  l' = array_sort comparefn l.
Proof.
  intros Hsw Ho Hf. apply (ordered_stable_unique comparefn Hsw); [exact Ho| |].
  - now apply array_sort_is_ordered.
  - intros a. rewrite Hf. symmetry. apply array_sort_filter; [exact Hsw|].
    intros x y Hx Hy. unfold tie in Hx, Hy.
    apply andb_true_iff in Hx as [_ Hx], Hy as [Hy _].
    apply negb_true_iff in Hx, Hy.
    exact (sw_ntrans _ Hsw x a y Hx Hy).
Qed.

(** ** The sort engine *)

Lemma localeCompare_zero (a b : string) : localeCompare a b = 0 <-> a = b.
Proof.
  rewrite <- string_compare_eq. unfold localeCompare.
  destruct (String.compare a b); split; intros H; try reflexivity; discriminate.
Qed.

Lemma localeCompare_refl (a : string) : localeCompare a a = 0.
Proof. now apply localeCompare_zero. Qed.

Lemma precedes_due_asc (a b : Task) :
  precedes (comparator DueAsc) a b =
  if (due a =? "-")%string then false
  else if (due b =? "-")%string then true
  else precedes localeCompare (due a) (due b).
Proof.
  unfold precedes, comparator.
  destruct (due a =? "-")%string; [reflexivity|].
  now destruct (due b =? "-")%string.
Qed.

Lemma precedes_due_desc (a b : Task) :
  precedes (comparator DueDesc) a b =
  if (due a =? "-")%string then false
  else if (due b =? "-")%string then true
  else precedes localeCompare (due b) (due a).
Proof.
  unfold precedes, comparator.
  destruct (due a =? "-")%string; [reflexivity|].
  now destruct (due b =? "-")%string.
Qed.

(** Each of the eight comparators asks its question consistently. *)
Lemma comparator_strict_weak (o : SortOption) : StrictWeak (precedes (comparator o)).
Proof.
  destruct o.
  - exact (StrictWeak_flip _ (StrictWeak_key created _ StrictWeak_string)).
  - exact (StrictWeak_key created _ StrictWeak_string).
  - exact (StrictWeak_flip _ (StrictWeak_key updated _ StrictWeak_string)).
  - exact (StrictWeak_key updated _ StrictWeak_string).
  - eapply StrictWeak_ext; [intros a b; symmetry; apply precedes_due_asc|].
    apply (StrictWeak_sentinel (fun t => (due t =? "-")%string)).
    exact (StrictWeak_key due _ StrictWeak_string).
  - eapply StrictWeak_ext; [intros a b; symmetry; apply precedes_due_desc|].
    apply (StrictWeak_sentinel (fun t => (due t =? "-")%string)
             (fun a b => precedes localeCompare (due b) (due a))).
    exact (StrictWeak_flip _ (StrictWeak_key due _ StrictWeak_string)).
  - exact (StrictWeak_flip _
             (StrictWeak_key (fun t => PRIORITY_WEIGHT (priority t)) _ StrictWeak_weight)).
  - exact (StrictWeak_key (fun t => PRIORITY_WEIGHT (priority t)) _ StrictWeak_weight).
Qed.

Lemma Priority_eqb_eq (p q : Priority) : Priority_eqb p q = true -> p = q.
Proof. destruct p, q; simpl; congruence. Qed.

(** Tasks with the same key are never strictly ordered. *)
Lemma same_key_tied (o : SortOption) (a x y : Task) :
  same_key o a x = true -> same_key o a y = true ->
  precedes (comparator o) x y = false.
Proof.
  unfold precedes.
  destruct o; simpl; intros Hx Hy.
  1-4: apply String.eqb_eq in Hx, Hy; rewrite <- Hx, <- Hy;
       now rewrite localeCompare_refl.
  1-2: apply String.eqb_eq in Hx, Hy; rewrite <- Hx, <- Hy;
       destruct (due a =? "-")%string; [reflexivity|];
       now rewrite localeCompare_refl.
  1-2: apply Priority_eqb_eq in Hx, Hy; rewrite <- Hx, <- Hy;
       now rewrite Z.sub_diag.
Qed.

(** Neither are tasks the comparator calls equal to a common third. *)
Lemma compares_equal_tied (o : SortOption) (a x y : Task) :
  compares_equal o a x = true -> compares_equal o a y = true ->
  precedes (comparator o) x y = false.
Proof.
  unfold compares_equal, precedes. rewrite !Z.eqb_eq.
  destruct o; simpl.
  1-4: intros Hx Hy; apply localeCompare_zero in Hx, Hy;
       rewrite ?Hx, ?Hy, <- ?Hx, <- ?Hy; now rewrite localeCompare_refl.
  1-2: destruct (due a =? "-")%string; [discriminate|];
       destruct (due x =? "-")%string; [discriminate|];
       destruct (due y =? "-")%string; [discriminate|];
       intros Hx Hy; apply localeCompare_zero in Hx, Hy;
       rewrite ?Hx, ?Hy, <- ?Hx, <- ?Hy; now rewrite localeCompare_refl.
  1-2: intros Hx Hy; apply Z.ltb_ge; lia.
Qed.

Lemma StronglySorted_impl {A : Type} (R R' : A -> A -> Prop) (l : list A) :
  (forall x y, R x y -> R' x y) -> StronglySorted R l -> StronglySorted R' l.
Proof.
  intros HR. induction 1 as [|x l Hs IH Hf]; constructor; [assumption|].
  eapply Forall_impl; [|exact Hf]. auto.
Qed.

Lemma due_order_of_precedes (o : SortOption) (a b : Task) :
  o = DueAsc \/ o = DueDesc ->
  precedes (comparator o) b a = false -> due_order o a b.
Proof.
  intros [-> | ->]; [rewrite precedes_due_asc | rewrite precedes_due_desc];
    unfold due_order;
    destruct (due b =? "-")%string eqn:Eb;
    destruct (due a =? "-")%string eqn:Ea;
    rewrite ?String.eqb_eq, ?String.eqb_neq in *;
    intros H; split; try congruence;
    intros Ha Hb;
    first [ rewrite Eb in Hb; vm_compute in Hb; discriminate Hb
          | apply string_leb_not_lt; intros Hlt;
            apply precedes_localeCompare in Hlt; congruence ].
Qed.

Example sortTasks_priority_desc :
  map priority
    (sortTasks [sample "a" "-" Low; sample "b" "-" High; sample "c" "-" Medium]
               PriorityDesc)
  = [High; Medium; Low].
Proof. reflexivity. Qed.

Example sortTasks_priority_asc :
  map priority
    (sortTasks [sample "a" "-" Low; sample "b" "-" High; sample "c" "-" Medium]
               PriorityAsc)
  = [Low; Medium; High].
Proof. reflexivity. Qed.

Example sortTasks_due_asc :
  map filePath
    (sortTasks [sample "a" "-" Low; sample "b" "2026-03-01" Low;
                sample "c" "-" Low; sample "d" "2026-02-01" Low] DueAsc)
  = ["d"; "b"; "a"; "c"]%string.
Proof. reflexivity. Qed.

Example sortTasks_due_desc :
  map filePath
    (sortTasks [sample "a" "-" Low; sample "b" "2026-03-01" Low;
                sample "c" "-" Low; sample "d" "2026-02-01" Low] DueDesc)
  = ["b"; "d"; "a"; "c"]%string.
Proof. reflexivity. Qed.

Example shapes :
  isoDate "2026-03-01" = true /\ isoDate "-" = false /\ isoDate "asap" = false /\
  isTimestamp "2026-01-01-09:00" = true /\ isTimestamp "2026-01-01-0900" = false.
Proof. repeat split. Qed.

(** Dated and undated tasks: the sentinel goes last, the dates are in
    order. *)
Example sortTasks_due_mixed :
  map due
    (sortTasks [sample "a" "-" Low; sample "b" "2026-03-01" Low;
                sample "c" "2025-12-31" Low; sample "d" "-" Low] DueAsc)
  = ["2025-12-31"; "2026-03-01"; "-"; "-"]%string.
Proof. reflexivity. Qed.

(** C2. For every task list and each of the eight sort options, [sortTasks]
    returns a permutation of its input, and it is stable: the tasks that
    share a sort key with any given task (and likewise the tasks the
    comparator calls equal to it) appear in the output in the order they
    had in the input. *)
Theorem sortTasks_stable_permutation (ts : list Task) (o : SortOption) :
  Permutation (sortTasks ts o) ts /\
  (forall a, filter (same_key o a) (sortTasks ts o) = filter (same_key o a) ts) /\
  (forall a, filter (compares_equal o a) (sortTasks ts o)
             = filter (compares_equal o a) ts).
Proof.
  unfold sortTasks. split; [apply array_sort_perm|]. split; intros a.
  - apply array_sort_filter; [apply comparator_strict_weak|].
    apply same_key_tied.
  - apply array_sort_filter; [apply comparator_strict_weak|].
    apply compares_equal_tied.
Qed.

(** C4. Under [due-asc] and under [due-desc] the output holds exactly the
    tasks of the input, and whenever a task stands before another in it,
    it is not a task with the sentinel ["-"] in front of a task with a due
    date, and if both carry an ISO date their due strings are in lexical
    order, ascending or descending as the option says. *)
Theorem sortTasks_due_sentinel_last (ts : list Task) :
  (Permutation (sortTasks ts DueAsc) ts /\
   StronglySorted (due_order DueAsc) (sortTasks ts DueAsc)) /\
  (Permutation (sortTasks ts DueDesc) ts /\
   StronglySorted (due_order DueDesc) (sortTasks ts DueDesc)).
Proof.
  split; (split; [apply array_sort_perm|]).
  - eapply StronglySorted_impl;
      [|apply (array_sort_is_ordered _ (comparator_strict_weak DueAsc))].
    intros x y. apply due_order_of_precedes. now left.
  - eapply StronglySorted_impl;
      [|apply (array_sort_is_ordered _ (comparator_strict_weak DueDesc))].
    intros x y. apply due_order_of_precedes. now right.
Qed.

(** C5. Sorting the output of [sortTasks] again with the same option
    gives the same list, element for element. *)
Theorem sortTasks_idempotent (ts : list Task) (o : SortOption) :
  sortTasks (sortTasks ts o) o = sortTasks ts o.
Proof.
  unfold sortTasks. apply array_sort_idempotent, comparator_strict_weak.
Qed.

(** ** The task store *)

Lemma replaceTask_keys (u : Task) (prev : list Task) :
  map filePath (replaceTask u prev) = map filePath prev.
Proof.
  unfold replaceTask. induction prev as [|t prev IH]; simpl; [reflexivity|].
  rewrite IH. destruct (filePath t =? filePath u)%string eqn:E; [|reflexivity].
  apply String.eqb_eq in E. now rewrite E.
Qed.


Lemma sortTasks_perm (ts : list Task) (o : SortOption) :
  Permutation (sortTasks ts o) ts.
Proof. apply array_sort_perm. Qed.

(** C1. When the backend rejects the save, [saveTask] re-invokes
    [loadTasks]; if that load succeeds, the store holds the backend's
    collection sorted under the store's sort option, whatever the task and
    whatever the collection held before: the optimistic edit is gone.  The
    same holds from any state the store is in when the rejection arrives,
    the sort option then being the one the callback closed over. *)
Theorem saveTask_failure_reloads (st : TaskStore) (now : string) (task : Task)
  (e : string) (backend : list Task) :
  let st' := saveTask now task (Rejected e) (Resolved backend) st in
  (forall so reload st1,
      saveTask_settle so (Rejected e) reload st1
      = loadTasks so reload (setError (Some e) st1)) /\
  tasks st' = sortTasks backend (sortOption st') /\
  sortOption st' = sortOption st /\
  (forall so st1,
      tasks (saveTask_settle so (Rejected e) (Resolved backend) st1)
      = sortTasks backend so).
Proof.
  repeat split.
Qed.



(** ** Drag and drop *)

Lemma with_status_same (t : Task) : with_status (status t) t = t.
Proof. now destruct t. Qed.

Lemma findTask_path (id : string) (l : list Task) (t : Task) :
  findTask id l = Some t -> filePath t = id.
Proof.
  unfold findTask. intros H. apply find_some in H as [_ H].
  now apply String.eqb_eq.
Qed.

Lemma findTask_reassign (id id' : string) (s : Status) (l : list Task) :
  findTask id (reassign id' s l)
  = option_map (fun t => if (filePath t =? id')%string then with_status s t else t)
               (findTask id l).
Proof.
  unfold findTask, reassign. induction l as [|t l IH]; simpl; [reflexivity|].
  rewrite IH.
  assert (E : filePath (if (filePath t =? id')%string then with_status s t else t)
              = filePath t) by now destruct (filePath t =? id')%string.
  rewrite E. now destruct (filePath t =? id)%string.
Qed.




Lemma Status_eqb_eq (a b : Status) : Status_eqb a b = true <-> a = b.
Proof. destruct a, b; simpl; split; congruence. Qed.

Lemma Status_eqb_refl (a : Status) : Status_eqb a a = true.
Proof. now apply Status_eqb_eq. Qed.



(** The overlay after a drop on the column the task came from, when the
    last pointer-over event was on another column: no save is made and the
    overlay keeps the task in the other column, while the store has it in
    the original one. *)
Lemma dragEnd_overlay_counterexample :
  let b2 := handleDragOver "a.md" (Some "着手中"%string)
              (handleDragStart "a.md" sampleBoard) in
  let b3 := dragEnd "a.md" (Some "未着手"%string) "2026-01-02-10:00"
              (Resolved tt) (Resolved []) b2 in
  mirrors_canonical sampleBoard /\
  snd (handleDragEnd "a.md" (Some "未着手"%string) b2) = None /\
  idle b3 /\
  option_map status (findTask "a.md" (localTasks b3)) = Some InProgress /\
  option_map status (findTask "a.md" (tasks (store b3))) = Some NotStarted /\
  ~ mirrors_canonical b3.
Proof.
  cbv zeta. repeat split.
  unfold mirrors_canonical. vm_compute. discriminate.
Qed.

(** C9, as the handler has it.  Every drag end leaves the coordinator
    idle, whatever the target and whatever becomes of the save.  When a
    save is made, the overlay is replaced by the canonical collection once
    the optimistic update is committed, and stays so whether the save
    succeeds, or fails and the reload succeeds or fails.  When the drop has
    no target, the overlay gets the dragged task back in its original
    status.  In the remaining cases the overlay is left as the last
    pointer-over event made it, and the store is not touched. *)
Theorem dragEnd_idle_overlay (b : Board) (activeId : string) (over : option string)
  (now : string) (saved : Response unit) (reload : Response (list Task)) :
  let b' := dragEnd activeId over now saved reload b in
  idle b' /\
  match snd (handleDragEnd activeId over b), over with
  | Some _, _ => mirrors_canonical b'
  | None, None =>
      store b' = store b /\
      localTasks b' = match originalStatus b with
                      | Some s => reassign activeId s (localTasks b)
                      | None => localTasks b
                      end
  | None, Some _ => store b' = store b /\ localTasks b' = localTasks b
  end.
Proof.
  unfold dragEnd, handleDragEnd, idle, mirrors_canonical.
  destruct over as [overId|].
  - destruct (findTask activeId (localTasks b)) as [task|]; [|now repeat split].
    destruct (getStatusFromOverId (localTasks b) overId) as [newStatus|];
      [|now repeat split].
    destruct (differs (originalStatus b) newStatus); [|now repeat split].
    cbn [snd]. destruct saved as [u|e]; [now repeat split|].
    destruct reload as [loaded|e']; now repeat split.
  - destruct (originalStatus b); now repeat split.
Qed.

(** ** Repository sync *)

(** C8. [sync] never throws.  Whatever the backend answers, it returns a
    result, records that same result in [lastSyncResult] and lowers
    [isSyncing]; for a rejected call the result is the synthesized one,
    with [pulled], [pushed] and [conflicts] all false and the error text
    behind the prefix as its message. *)
Theorem sync_never_throws (r : Response SyncResult) (g : GitSync) :
  exists result,
    sync r g =
    (Returned result,
     mkGitSync (isGitRepo g) (branches g) (currentBranch g) false
               (Some result) (isChecking g)) /\
    match r with
    | Resolved v => result = v
    | Rejected e =>
        result = mkSyncResult false false false ("同期エラー: " ++ e)%string
    end.
Proof.
  destruct r as [v|e]; eexists; split; reflexivity.
Qed.

Lemma sync_settle_returns (r : Response SyncResult) (g : GitSync) :
  sync_settle r g =
  (Returned (resultOf r), setIsSyncing false (setLastSyncResult (Some (resultOf r)) g)).
Proof. now destruct r. Qed.

Lemma handleSync_begin_fields (t : Trigger) (b : Board) :
  handleSyncLog (handleSync_begin t b) = handleSyncLog b ++ [t] /\
  initialSyncDone (handleSync_begin t b) = initialSyncDone b /\
  timers (handleSync_begin t b) = timers b /\
  clock (handleSync_begin t b) = clock b /\
  syncCalls (handleSync_begin t b)
  = (if guard_passes b then syncCalls b ++ [syncBranch (gitSettings b)]
     else syncCalls b) /\
  syncMessage (handleSync_begin t b)
  = (if guard_passes b then None else syncMessage b).
Proof.
  unfold handleSync_begin, guard_passes.
  destruct (negb (isGitRepo (git b)) || isSyncing (git b)); now repeat split.
Qed.

Lemma autoSyncEffect_fields (b : Board) :
  handleSyncLog (autoSyncEffect b)
  = (if fires b then handleSyncLog b ++ [Auto] else handleSyncLog b) /\
  initialSyncDone (autoSyncEffect b) = (initialSyncDone b || fires b) /\
  timers (autoSyncEffect b) = timers b /\
  clock (autoSyncEffect b) = clock b /\
  (exists l, syncCalls (autoSyncEffect b) = syncCalls b ++ l /\
             (l = [] -> syncMessage (autoSyncEffect b) = syncMessage b)) /\
  (syncMessage b = None -> syncMessage (autoSyncEffect b) = None).
Proof.
  unfold autoSyncEffect, fires.
  destruct (negb (isChecking (git b)) && isGitRepo (git b)
            && negb (initialSyncDone b)) eqn:E.
  - pose proof (handleSync_begin_fields Auto (setInitialSyncDone true b))
      as (H1 & H2 & H3 & H4 & H5 & H6).
    rewrite H1, H2, H3, H4, H5, H6.
    split; [reflexivity|]. split; [cbn; now rewrite orb_true_r|].
    split; [reflexivity|]. split; [reflexivity|]. split.
    + destruct (guard_passes (setInitialSyncDone true b)).
      * eexists. split; [reflexivity|]. intros H. discriminate H.
      * exists []. split; [now rewrite app_nil_r|reflexivity].
    + intros H. now destruct (guard_passes (setInitialSyncDone true b)).
  - rewrite orb_false_r. repeat split; auto.
    exists []. split; [now rewrite app_nil_r|reflexivity].
Qed.

Lemma syncCalls_handleSync_afterSync (r : Response SyncResult) (b : Board) :
  syncCalls (handleSync_afterSync r b) = syncCalls b /\
  handleSyncLog (handleSync_afterSync r b) = handleSyncLog b /\
  initialSyncDone (handleSync_afterSync r b) = initialSyncDone b /\
  clock (handleSync_afterSync r b) = clock b /\
  syncMessage (handleSync_afterSync r b) = Some (message (resultOf r)) /\
  timers (handleSync_afterSync r b)
  = (if pulled (resultOf r) then timers b else timers b ++ [clock b + 3000]%N).
Proof.
  unfold handleSync_afterSync, runGit. rewrite sync_settle_returns.
  destruct (pulled (resultOf r)); now repeat split.
Qed.

Lemma handleSync_afterReload_fields (so : SortOption) (r : Response (list Task))
  (b : Board) :
  syncCalls (handleSync_afterReload so r b) = syncCalls b /\
  handleSyncLog (handleSync_afterReload so r b) = handleSyncLog b /\
  initialSyncDone (handleSync_afterReload so r b) = initialSyncDone b /\
  clock (handleSync_afterReload so r b) = clock b /\
  syncMessage (handleSync_afterReload so r b) = syncMessage b /\
  timers (handleSync_afterReload so r b) = timers b ++ [clock b + 3000]%N.
Proof.
  unfold handleSync_afterReload. destruct r; now repeat split.
Qed.

Lemma elapse_fields (dt : N) (b : Board) :
  syncCalls (elapse dt b) = syncCalls b /\
  handleSyncLog (elapse dt b) = handleSyncLog b /\
  initialSyncDone (elapse dt b) = initialSyncDone b /\
  clock (elapse dt b) = (clock b + dt)%N /\
  timers (elapse dt b)
  = filter (fun d => negb (d <=? clock b + dt)%N) (timers b) /\
  syncMessage (elapse dt b)
  = match filter (fun d => (d <=? clock b + dt)%N) (timers b) with
    | [] => syncMessage b
    | _ :: _ => None
    end.
Proof.
  unfold elapse.
  destruct (filter (fun d => (d <=? clock b + dt)%N) (timers b));
    now repeat split.
Qed.

Lemma handle_quiet (e : Event) (b : Board) :
  quiet e = true ->
  syncMessage (handle e b) = syncMessage b /\
  syncCalls (handle e b) = syncCalls b.
Proof.
  destruct e; try discriminate; intros _; cbn [handle].
  - now split.
  - unfold runGit. destruct r as [[|]|]; now split.
  - unfold runGit. destruct r; now split.
  - unfold runGit. destruct r; now split.
  - now split.
  - now split.
  - pose proof (handleSync_afterReload_fields so r b).
    now intuition.
  - destruct (SortOption_eqb option (sortOption (store b))); now split.
  - destruct r; now split.
Qed.

Lemma handle_log (e : Event) (b : Board) :
  handleSyncLog (handle e b)
  = handleSyncLog b ++ match e with ClickSync => [Manual] | _ => [] end /\
  initialSyncDone (handle e b) = initialSyncDone b.
Proof.
  destruct e; cbn [handle]; rewrite ?app_nil_r.
  - now split.
  - unfold runGit. destruct r as [[|]|]; now split.
  - unfold runGit. destruct r; now split.
  - unfold runGit. destruct r; now split.
  - now split.
  - pose proof (handleSync_begin_fields Manual b). now intuition.
  - now split.
  - pose proof (syncCalls_handleSync_afterSync r b). now intuition.
  - pose proof (handleSync_afterReload_fields so r b).
    now intuition.
  - destruct (SortOption_eqb option (sortOption (store b))); now split.
  - pose proof (elapse_fields dt b). now intuition.
  - destruct r; now split.
Qed.

Lemma autoSyncCount_app (b : Board) (l : list Trigger) (log : list Trigger) :
  handleSyncLog b = log ++ l ->
  autoSyncCount b = (List.length (filter isAuto log) + List.length (filter isAuto l))%nat.
Proof.
  unfold autoSyncCount. intros ->. now rewrite filter_app, length_app.
Qed.

Lemma step_single_shot (b : Board) (e : Event) :
  single_shot b -> single_shot (step b e).
Proof.
  unfold single_shot, step. intros H.
  destruct (handle_log e b) as [Hlog Hflag].
  destruct (autoSyncEffect_fields (handle e b)) as (Alog & Aflag & _).
  rewrite Aflag, Hflag.
  assert (Hh : autoSyncCount (handle e b) = autoSyncCount b).
  { rewrite (autoSyncCount_app _ _ _ Hlog). fold (autoSyncCount b).
    destruct e; simpl; lia. }
  destruct (fires (handle e b)) eqn:F.
  - rewrite (autoSyncCount_app _ _ _ Alog). fold (autoSyncCount (handle e b)).
    rewrite Hh, H. unfold fires in F. rewrite Hflag in F.
    destruct (initialSyncDone b); simpl.
    + rewrite andb_false_r in F. discriminate.
    + reflexivity.
  - unfold autoSyncCount. rewrite Alog. fold (autoSyncCount (handle e b)).
    rewrite Hh, H. now rewrite orb_false_r.
Qed.

Lemma run_single_shot (events : list Event) (b : Board) :
  single_shot b -> single_shot (run events b).
Proof.
  unfold run. revert b.
  induction events as [|e events IH]; intros b H; simpl; [exact H|].
  apply IH. now apply step_single_shot.
Qed.

(** C6. From the mount of a board on, whatever events follow and however
    often the detection sequence completes, the auto-sync effect calls
    [handleSync] at most once. *)
Theorem auto_sync_at_most_once (saved : option GitSettings) (now : N)
  (events : list Event) :
  (autoSyncCount (run events (mountBoard saved now)) <= 1)%nat.
Proof.
  assert (H : single_shot (run events (mountBoard saved now)))
    by (apply run_single_shot; reflexivity).
  unfold single_shot in H. rewrite H.
  destruct (initialSyncDone _); lia.
Qed.

(** The detection completes twice; the sync is started once, by the
    effect, on the saved branch. *)
Example auto_sync_once_on_two_detections :
  let b := run (readyEvents ++ [GitSyncSettled (Resolved pushedResult); InitBegin]
                ++ readyEvents)
               (mountBoard (Some (mkGitSettings "dev")) 0) in
  autoSyncCount b = 1%nat /\ syncCalls b = ["dev"%string].
Proof. split; reflexivity. Qed.

Lemma handle_timers (e : Event) (b : Board) (d : N) :
  In d (timers b) ->
  In d (timers (handle e b)) \/
  (exists dt, e = Elapse dt /\ (d <= clock b + dt)%N).
Proof.
  intros Hin. destruct e; cbn [handle].
  - now left.
  - left. unfold runGit. now destruct r as [[|]|].
  - left. unfold runGit. now destruct r.
  - left. unfold runGit. now destruct r.
  - now left.
  - left. destruct (handleSync_begin_fields Manual b) as (_ & _ & -> & _).
    exact Hin.
  - now left.
  - left. destruct (syncCalls_handleSync_afterSync r b) as (_ & _ & _ & _ & _ & ->).
    destruct (pulled (resultOf r)); [exact Hin|apply in_or_app; now left].
  - left.
    destruct (handleSync_afterReload_fields so r b)
      as (_ & _ & _ & _ & _ & ->).
    apply in_or_app. now left.
  - left. now destruct (SortOption_eqb option (sortOption (store b))).
  - destruct (elapse_fields dt b) as (_ & _ & _ & _ & -> & _).
    destruct (d <=? clock b + dt)%N eqn:E.
    + right. exists dt. split; [reflexivity|]. now apply N.leb_le.
    + left. apply filter_In. split; [exact Hin|]. now rewrite E.
  - left. now destruct r.
Qed.

Lemma filter_nonempty_In {A : Type} (p : A -> bool) (l : list A) (x : A) :
  In x l -> p x = true -> filter p l <> [].
Proof.
  intros Hin Hp Hnil.
  assert (H : In x (filter p l)) by (apply filter_In; now split).
  rewrite Hnil in H. exact H.
Qed.

(** Two runs against the claim as stated.  In the first the message is set
    at time 0 with its timeout due at 3000; one second later the sync
    button starts a new sync and the message is gone, the timeout still
    pending.  In the second the result was pulled and the reload takes five
    seconds: at time 5000 the message is still shown and no timeout has
    been armed yet. *)
Lemma syncMessage_counterexample :
  let b1 := run (readyEvents ++ [GitSyncSettled (Resolved pushedResult)])
                (mountBoard None 0) in
  let b2 := run [Elapse 1000; ClickSync] b1 in
  let b3 := run (readyEvents ++ [GitSyncSettled (Resolved pulledResult); Elapse 5000])
                (mountBoard None 0) in
  (clock b1 = 0%N /\ syncMessage b1 = Some "pushed"%string /\ timers b1 = [3000%N]) /\
  (clock b2 = 1000%N /\ syncMessage b2 = None /\ timers b2 = [3000%N]) /\
  (clock b3 = 5000%N /\ syncMessage b3 = Some "pulled"%string /\ timers b3 = []).
Proof. repeat split. Qed.

(** C7, as the handlers have it.
    - When [git_sync] settles, [handleSync] shows the message; it arms the
      timeout, 3000 ms from then, at once if nothing was pulled, and
      otherwise only when the reload has settled, 3000 ms from that moment.
    - Once the clock reaches the deadline of a pending timeout, the message
      is cleared.
    - A step that clears a shown message is either the clock reaching the
      deadline of a pending timeout or a step in which a new [sync] call is
      started.
    - A pending timeout stays pending until the clock reaches its
      deadline.
    - A click on the sync button that passes the guard of [handleSync]
      clears the message. *)
Theorem syncMessage_lifecycle :
  (forall r b,
      syncMessage (handleSync_afterSync r b) = Some (message (resultOf r)) /\
      timers (handleSync_afterSync r b)
      = (if pulled (resultOf r) then timers b else timers b ++ [clock b + 3000]%N)) /\
  (forall so r b,
      syncMessage (handleSync_afterReload so r b) = syncMessage b /\
      timers (handleSync_afterReload so r b) = timers b ++ [clock b + 3000]%N) /\
  (forall b dt d,
      In d (timers b) -> (d <= clock b + dt)%N ->
      syncMessage (step b (Elapse dt)) = None) /\
  (forall b e m,
      syncMessage b = Some m -> syncMessage (step b e) = None ->
      (exists dt d, e = Elapse dt /\ In d (timers b) /\ (d <= clock b + dt)%N) \/
      (List.length (syncCalls b) < List.length (syncCalls (step b e)))%nat) /\
  (forall b e d,
      In d (timers b) ->
      In d (timers (step b e)) \/
      (exists dt, e = Elapse dt /\ (d <= clock b + dt)%N)) /\
  (forall b,
      isGitRepo (git b) = true -> isSyncing (git b) = false ->
      syncMessage (step b ClickSync) = None).
Proof.
  split; [|split; [|split; [|split; [|split]]]].
  - intros r b.
    destruct (syncCalls_handleSync_afterSync r b) as (_ & _ & _ & _ & Hm & Ht).
    split; assumption.
  - intros so r b.
    destruct (handleSync_afterReload_fields so r b) as (_ & _ & _ & _ & Hm & Ht).
    split; assumption.
  - intros b dt d Hin Hle. unfold step. cbn [handle].
    destruct (autoSyncEffect_fields (elapse dt b)) as (_ & _ & _ & _ & _ & Hkeep).
    apply Hkeep.
    destruct (elapse_fields dt b) as (_ & _ & _ & _ & _ & Hm). rewrite Hm.
    destruct (filter (fun d0 => (d0 <=? clock b + dt)%N) (timers b)) eqn:E;
      [|reflexivity].
    exfalso. eapply filter_nonempty_In; [exact Hin| |exact E].
    now apply N.leb_le.
  - intros b e m Hm Hnone. unfold step in *.
    destruct (autoSyncEffect_fields (handle e b))
      as (_ & _ & _ & _ & (l & Hcalls & Hsame) & _).
    rewrite Hcalls, length_app.
    destruct l as [|c l]; [|right].
    2:{ assert (Hmono : (List.length (syncCalls b)
                         <= List.length (syncCalls (handle e b)))%nat).
        { destruct (quiet e) eqn:Q.
          - destruct (handle_quiet e b Q) as [_ ->]. lia.
          - destruct e; try discriminate; cbn [handle].
            + destruct (handleSync_begin_fields Manual b) as (_ & _ & _ & _ & -> & _).
              destruct (guard_passes b); rewrite ?length_app; lia.
            + destruct (syncCalls_handleSync_afterSync r b) as [-> _]. lia.
            + destruct (elapse_fields dt b) as [-> _]. lia. }
        simpl. lia. }
    rewrite (Hsame eq_refl) in Hnone.
    destruct (quiet e) eqn:Q.
    + destruct (handle_quiet e b Q) as [Hq _]. congruence.
    + destruct e; try discriminate; cbn [handle] in *.
      * right.
        destruct (handleSync_begin_fields Manual b) as (_ & _ & _ & _ & Hc & Hg).
        rewrite Hc. rewrite Hg in Hnone.
        destruct (guard_passes b); [|congruence].
        rewrite length_app. simpl. lia.
      * destruct (syncCalls_handleSync_afterSync r b) as (_ & _ & _ & _ & Hs & _).
        congruence.
      * left. destruct (elapse_fields dt b) as (_ & _ & _ & _ & _ & He).
        rewrite He in Hnone.
        destruct (filter (fun d => (d <=? clock b + dt)%N) (timers b))
          as [|d rest] eqn:E; [congruence|].
        assert (Hd : In d (filter (fun d => (d <=? clock b + dt)%N) (timers b)))
          by (rewrite E; now left).
        apply filter_In in Hd as [Hin Hle]. apply N.leb_le in Hle.
        exists dt, d. now repeat split.
  - intros b e d Hin. unfold step.
    destruct (autoSyncEffect_fields (handle e b)) as (_ & _ & -> & _).
    now apply handle_timers.
  - intros b Hr Hs. unfold step. cbn [handle].
    destruct (autoSyncEffect_fields (handleSync_begin Manual b))
      as (_ & _ & _ & _ & _ & Hkeep).
    apply Hkeep.
    destruct (handleSync_begin_fields Manual b) as (_ & _ & _ & _ & _ & ->).
    unfold guard_passes. now rewrite Hr, Hs.
Qed.

Lemma syncMessage_lifecycle_witness :
  let b1 := run (readyEvents ++ [GitSyncSettled (Resolved pushedResult)])
                (mountBoard None 0) in
  (In 3000%N (timers b1) /\ (3000 <= clock b1 + 3000)%N /\
   syncMessage (step b1 (Elapse 3000)) = None) /\
  (syncMessage b1 = Some "pushed"%string /\
   syncMessage (step b1 ClickSync) = None /\
   ((exists dt d, ClickSync = Elapse dt /\ In d (timers b1) /\ (d <= clock b1 + dt)%N) \/
    (List.length (syncCalls b1) < List.length (syncCalls (step b1 ClickSync)))%nat)).
Proof.
  intros b1.
  destruct syncMessage_lifecycle as (_ & _ & Hfire & Honly & _).
  assert (Hin : In 3000%N (timers b1)) by (vm_compute; now left).
  assert (Hle : (3000 <= clock b1 + 3000)%N) by (vm_compute; discriminate).
  assert (Hm : syncMessage b1 = Some "pushed"%string) by (vm_compute; reflexivity).
  assert (Hn : syncMessage (step b1 ClickSync) = None) by (vm_compute; reflexivity).
  split.
  - split; [exact Hin|]. split; [exact Hle|]. exact (Hfire b1 3000%N 3000%N Hin Hle).
  - split; [exact Hm|]. split; [exact Hn|]. exact (Honly b1 ClickSync _ Hm Hn).
Defined.

(* ================================================================== *)
(** * Part III: further properties of the code                         *)
(* ================================================================== *)

(** ** The sort engine, continued *)

Lemma key_order_of_precedes (o : SortOption) (a b : Task) :
  precedes (comparator o) b a = false -> key_order o a b.
Proof.
  destruct o; cbn [key_order].
  1-4: unfold precedes, comparator; intros H _ _; apply string_leb_not_lt;
       intros Hlt; apply precedes_localeCompare in Hlt;
       unfold precedes in Hlt; congruence.
  1-2: apply due_order_of_precedes; auto.
  1-2: unfold precedes, comparator; rewrite Z.ltb_ge; lia.
Qed.

Lemma sortTasks_key_sorted (ts : list Task) (o : SortOption) :
  StronglySorted (key_order o) (sortTasks ts o).
Proof.
  eapply StronglySorted_impl;
    [|apply (array_sort_is_ordered _ (comparator_strict_weak o))].
  intros x y. apply key_order_of_precedes.
Qed.

(** X1. For every option the output of [sortTasks] is in the order the
    option names.  Of two tasks the one standing first has: for the
    priority options the smaller (descending: the larger) weight; for the
    creation and update options, when both timestamps have the shape
    [YYYY-MM-DD-HH:MM], the lexically smaller (descending: larger) one;
    for the due options the order of C4.  The output has as many tasks as
    the input. *)
Theorem sortTasks_in_key_order (ts : list Task) (o : SortOption) :
  StronglySorted (key_order o) (sortTasks ts o) /\
  List.length (sortTasks ts o) = List.length ts.
Proof.
  split; [apply sortTasks_key_sorted|].
  apply Permutation_length, array_sort_perm.
Qed.

(** X2. The output of [sortTasks] is the only arrangement that is in
    order for the comparator and keeps, for every task, the tasks tied with
    it in their input sequence. *)
Theorem sortTasks_unique (ts l : list Task) (o : SortOption) :
  ordered (comparator o) l ->
  (forall a, filter (tie (comparator o) a) l = filter (tie (comparator o) a) ts) ->
  l = sortTasks ts o.
Proof.
  intros Ho Hf. apply array_sort_unique; [apply comparator_strict_weak| |]; assumption.
Qed.

Lemma sortTasks_unique_witness :
  let ts := [sample "a" "-" Low; sample "b" "-" High; sample "c" "-" Medium] in
  let l := [sample "b" "-" High; sample "c" "-" Medium; sample "a" "-" Low] in
  l = sortTasks ts PriorityDesc.
Proof.
  intros ts l. apply sortTasks_unique.
  - unfold ordered, l. repeat constructor.
  - intros a. unfold tie, precedes, l, ts. cbn.
    destruct (priority a); reflexivity.
Defined.

Lemma sortTasks_ordered_fix (ts : list Task) (o : SortOption) :
  sortTasks (sortTasks ts o) o = sortTasks ts o.
Proof.
  unfold sortTasks. apply array_sort_idempotent, comparator_strict_weak.
Qed.

(** ** The task store, continued *)

(** X3. [changeSortOption] records the option and re-sorts what the store
    holds; the callback itself fetches nothing (on the board the load
    effect follows with a reload when the option is a new one, see
    [handle]): the collection is a permutation of the old
    one, in the order the option names (as in X1: by weight, and lexically
    for timestamps and dates of the fixed shapes), tasks with the same key
    staying in the sequence they were shown in; the flags are untouched;
    choosing the same option again changes nothing, nor does choosing the
    option a successful load has just sorted under. *)
Theorem changeSortOption_resorts (o : SortOption) (st : TaskStore) :
  let st' := changeSortOption o st in
  sortOption st' = o /\
  loading st' = loading st /\ error st' = error st /\
  Permutation (tasks st') (tasks st) /\
  StronglySorted (key_order o) (tasks st') /\
  (forall a, filter (same_key o a) (tasks st') = filter (same_key o a) (tasks st)) /\
  changeSortOption o st' = st' /\
  (forall loaded,
      tasks (changeSortOption o (loadTasks o (Resolved loaded) st))
      = tasks (loadTasks o (Resolved loaded) st)).
Proof.
  cbn zeta. unfold changeSortOption, setTasks, setSortOption.
  cbn [tasks loading error sortOption].
  split; [reflexivity|]. split; [reflexivity|]. split; [reflexivity|].
  split; [apply sortTasks_perm|].
  split; [apply sortTasks_key_sorted|].
  split; [|split].
  - intros a. apply array_sort_filter; [apply comparator_strict_weak|].
    apply same_key_tied.
  - now rewrite sortTasks_ordered_fix.
  - intros loaded. destruct st. cbn. apply sortTasks_ordered_fix.
Qed.

Lemma sortTasks_keys (ts : list Task) (o : SortOption) :
  Permutation (map filePath (sortTasks ts o)) (map filePath ts).
Proof. apply Permutation_map, sortTasks_perm. Qed.

Lemma loadTasks_tasks (so : SortOption) (r : Response (list Task)) (st : TaskStore) :
  tasks (loadTasks so r st)
  = match r with Resolved l => sortTasks l so | Rejected _ => tasks st end.
Proof. now destruct r. Qed.

Lemma storeStep_tasks (st : TaskStore) (e : StoreEvent) :
  Permutation (map filePath (tasks (storeStep st e))) (map filePath (tasks st)) \/
  (exists so l, delivered e = Some l /\ tasks (storeStep st e) = sortTasks l so).
Proof.
  destruct e as [so r|so now task|so saved reload|so created reload
                 |so deleted reload|o]; cbn [storeStep delivered].
  - rewrite loadTasks_tasks. destruct r as [l|e]; [right; eauto|now left].
  - left. unfold saveTask_optimistic. cbn [tasks setTasks].
    etransitivity; [apply sortTasks_keys|]. now rewrite replaceTask_keys.
  - destruct saved as [u|e]; [now left|]. cbn [saveTask_settle].
    rewrite loadTasks_tasks. destruct reload as [l|e']; [right; eauto|now left].
  - destruct created as [t|e]; [|now left]. cbn [createTask].
    rewrite loadTasks_tasks. destruct reload as [l|e']; [right; eauto|now left].
  - destruct deleted as [u|e]; [|now left]. cbn [deleteTask].
    rewrite loadTasks_tasks. destruct reload as [l|e']; [right; eauto|now left].
  - left. unfold changeSortOption. cbn [tasks setTasks setSortOption].
    apply sortTasks_keys.
Qed.

(** X4. Membership of the collection changes only through an answered
    [get_tasks]: after any store operation the keys are a rearrangement
    of the keys before, unless the operation received a task list from
    the backend, in which case the collection is that list, sorted.  In
    particular a created task is never inserted locally, a deleted one
    never removed locally, and a failed call of any kind keeps every
    key. *)
Theorem storeStep_membership (st : TaskStore) (e : StoreEvent) :
  (delivered e = None ->
   Permutation (map filePath (tasks (storeStep st e))) (map filePath (tasks st))) /\
  (forall l, delivered e = Some l ->
   exists so, tasks (storeStep st e) = sortTasks l so).
Proof.
  split.
  - intros Hnone. destruct (storeStep_tasks st e) as [H|(so & l & Hd & _)];
      [exact H|congruence].
  - intros l Hl.
    destruct e as [so r|so now task|so saved reload|so created reload
                   |so deleted reload|o]; cbn [delivered] in Hl; try discriminate.
    + destruct r; inversion Hl; subst. now exists so.
    + destruct saved; [discriminate|]. destruct reload; inversion Hl; subst.
      now exists so.
    + destruct created; [|discriminate]. destruct reload; inversion Hl; subst.
      now exists so.
    + destruct deleted; [|discriminate]. destruct reload; inversion Hl; subst.
      now exists so.
Qed.

Lemma storeStep_membership_witness :
  let st := sampleStore in
  Permutation
    (map filePath (tasks (storeStep st (ECreate CreatedDesc (Rejected "disk full") (Resolved [])))))
    (map filePath (tasks st)) /\
  exists so,
    tasks (storeStep st (EDelete DueAsc (Resolved tt) (Resolved [sample "c.md" "-" Low])))
    = sortTasks [sample "c.md" "-" Low] so.
Proof.
  intros st. split.
  - apply (proj1 (storeStep_membership st
             (ECreate CreatedDesc (Rejected "disk full") (Resolved [])))).
    reflexivity.
  - apply (proj2 (storeStep_membership st
             (EDelete DueAsc (Resolved tt) (Resolved [sample "c.md" "-" Low])))).
    reflexivity.
Defined.

(** X5. If the backend delivers only lists with pairwise distinct
    [filePath]s, a store whose tasks have distinct [filePath]s keeps them
    distinct through any sequence of loads, saves, creations, deletions
    and sort changes, in any interleaving and with any stale sort
    option. *)
Theorem store_keys_stay_unique (events : list StoreEvent) (st : TaskStore) :
  backend_unique events ->
  uniqueKeys (tasks st) ->
  uniqueKeys (tasks (storeRun events st)).
Proof.
  unfold storeRun, backend_unique. revert st.
  induction events as [|e events IH]; intros st Hb Hu; [exact Hu|].
  inversion Hb as [|? ? He Hrest]; subst. cbn [fold_left].
  apply IH; [exact Hrest|].
  destruct (storeStep_tasks st e) as [Hp|(so & l & Hd & Ht)].
  - unfold uniqueKeys in *. eapply Permutation_NoDup; [symmetry; exact Hp|exact Hu].
  - unfold uniqueKeys in *. rewrite Ht.
    eapply Permutation_NoDup; [symmetry; apply sortTasks_keys|]. now apply He.
Qed.

Lemma store_keys_stay_unique_witness :
  uniqueKeys
    (tasks (storeRun
              [ESaveOptimistic DueAsc "2026-01-02-10:00" (sample "a.md" "-" High);
               ESaveSettled CreatedDesc (Rejected "busy") (Resolved sampleTasks);
               EChangeSort PriorityDesc]
              sampleStore)).
Proof.
  apply store_keys_stay_unique.
  - repeat constructor; intros l H; try discriminate.
    inversion H; subst. repeat constructor; simpl; intuition discriminate.
  - repeat constructor; simpl; intuition discriminate.
Defined.

(** X6. When the backend rejects the save and then also the reload, the
    optimistic edit stays in the store: the collection is the one the
    synchronous step made, the error shown is the reload's, not the
    save's, and the loading flag is down. *)
Theorem saveTask_reload_failure_keeps_edit (st : TaskStore) (now : string)
  (task : Task) (e e' : string) :
  let st' := saveTask now task (Rejected e) (Rejected e') st in
  tasks st' = sortTasks (replaceTask (with_updated now task) (tasks st)) (sortOption st) /\
  error st' = Some e' /\
  loading st' = false /\
  sortOption st' = sortOption st.
Proof. repeat split. Qed.

(** ** Drag and drop, continued *)

Lemma status_name_inj (s s' : Status) : status_name s = status_name s' -> s = s'.
Proof. destruct s, s'; simpl; intros H; try reflexivity; discriminate H. Qed.

Lemma find_status_name (s : Status) :
  find (fun s' => (status_name s' =? status_name s)%string) STATUSES = Some s.
Proof. now destruct s. Qed.

Lemma find_status_none (overId : string) :
  (forall s, status_name s <> overId) ->
  find (fun s => (status_name s =? overId)%string) STATUSES = None.
Proof.
  intros H. unfold STATUSES. cbn [find].
  rewrite (proj2 (String.eqb_neq _ _) (H NotStarted)).
  rewrite (proj2 (String.eqb_neq _ _) (H InProgress)).
  now rewrite (proj2 (String.eqb_neq _ _) (H Done)).
Qed.

Lemma findTask_none (id : string) (l : list Task) :
  findTask id l = None <-> Forall (fun t => filePath t <> id) l.
Proof.
  unfold findTask. induction l as [|t l IH]; simpl.
  - split; [constructor|reflexivity].
  - destruct (filePath t =? id)%string eqn:E.
    + apply String.eqb_eq in E. split; [discriminate|].
      intros H. inversion H; subst. contradiction.
    + apply String.eqb_neq in E. rewrite IH. split.
      * intros H. now constructor.
      * intros H. now inversion H.
Qed.

(** X7. A pointer-over or drop id that is the name of a column resolves
    to that column's status, even when a task carries the same string as
    its [filePath]; any other id resolves to the status of the first task
    of the overlay with that [filePath]; and it resolves to nothing
    exactly when it names neither a column nor a task. *)
Theorem getStatusFromOverId_resolves (l : list Task) (overId : string) :
  (forall s, overId = status_name s -> getStatusFromOverId l overId = Some s) /\
  ((forall s, status_name s <> overId) ->
   getStatusFromOverId l overId = option_map status (findTask overId l)) /\
  (getStatusFromOverId l overId = None <->
   (forall s, status_name s <> overId) /\ Forall (fun t => filePath t <> overId) l).
Proof.
  split; [|split].
  - intros s ->. unfold getStatusFromOverId. now rewrite find_status_name.
  - intros H. unfold getStatusFromOverId. rewrite (find_status_none _ H).
    now destruct (findTask overId l).
  - unfold getStatusFromOverId.
    destruct (find (fun s => (status_name s =? overId)%string) STATUSES) as [s|] eqn:E.
    + apply find_some in E as [_ E]. apply String.eqb_eq in E.
      split; [discriminate|]. intros [H _]. now destruct (H s).
    + assert (Hn : forall s, status_name s <> overId).
      { intros s Hs.
        assert (Hin : In s STATUSES) by (destruct s; simpl; auto).
        pose proof (find_none _ _ E s Hin) as Hf. cbn beta in Hf.
        apply String.eqb_neq in Hf. contradiction. }
      destruct (findTask overId l) as [t|] eqn:F.
      * split; [discriminate|]. intros [_ H]. apply findTask_none in H. congruence.
      * split; [|reflexivity]. intros _. split; [exact Hn|]. now apply findTask_none.
Qed.

Lemma getStatusFromOverId_resolves_witness :
  getStatusFromOverId [sample "完了" "-" Low] "完了" = Some Done /\
  getStatusFromOverId [with_status InProgress (sample "a.md" "-" Low)] "a.md"
  = option_map status (findTask "a.md" [with_status InProgress (sample "a.md" "-" Low)]).
Proof.
  split.
  - apply (proj1 (getStatusFromOverId_resolves [sample "完了" "-" Low] "完了") Done).
    reflexivity.
  - apply (proj1 (proj2 (getStatusFromOverId_resolves
                           [with_status InProgress (sample "a.md" "-" Low)] "a.md"))).
    intros s; destruct s; discriminate.
Defined.

Lemma reassign_keys (id : string) (s : Status) (l : list Task) :
  map filePath (reassign id s l) = map filePath l.
Proof.
  unfold reassign. induction l as [|t l IH]; simpl; [reflexivity|].
  rewrite IH. now destruct (filePath t =? id)%string.
Qed.

Lemma reassign_reassign (id : string) (s s' : Status) (l : list Task) :
  reassign id s' (reassign id s l) = reassign id s' l.
Proof.
  unfold reassign. rewrite map_map. apply map_ext. intros t.
  destruct (filePath t =? id)%string eqn:E; [|now rewrite E].
  cbn [filePath with_status]. now rewrite E.
Qed.

Lemma reassign_no_match (id : string) (s : Status) (l : list Task) :
  Forall (fun t => filePath t <> id) l -> reassign id s l = l.
Proof.
  unfold reassign. induction 1 as [|t l Ht _ IH]; simpl; [reflexivity|].
  rewrite IH. apply String.eqb_neq in Ht. now rewrite Ht.
Qed.

(** How the overlay may differ from what it was: entry by entry the same
    task, or a task with the dragged [filePath] and another status. *)
Lemma reassign_frame (id : string) (s : Status) (l : list Task) :
  Forall2 (fun t t' => t' = t \/ (filePath t = id /\ t' = with_status s t))
          l (reassign id s l).
Proof.
  unfold reassign. induction l as [|t l IH]; simpl; constructor; [|exact IH].
  destruct (filePath t =? id)%string eqn:E; [|now left].
  right. split; [now apply String.eqb_eq|reflexivity].
Qed.

Lemma Forall2_same {A : Type} (R : A -> A -> Prop) (l : list A) :
  (forall x, R x x) -> Forall2 R l l.
Proof. intros H. induction l; constructor; auto. Qed.

(** A target that resolves keeps resolving to the same status after the
    dragged task is reassigned to that status. *)
Lemma getStatusFromOverId_reassign (id overId : string) (B : Status) (l : list Task) :
  getStatusFromOverId l overId = Some B ->
  getStatusFromOverId (reassign id B l) overId = Some B.
Proof.
  unfold getStatusFromOverId.
  destruct (find (fun s => (status_name s =? overId)%string) STATUSES); [auto|].
  rewrite findTask_reassign.
  destruct (findTask overId l) as [t|]; [|discriminate].
  intros H. inversion H; subst. cbn [option_map].
  now destruct (filePath t =? id)%string.
Qed.

(** X8. A pointer-over event only recolours the dragged task in the
    overlay: the store, the drag record and the [filePath] of every entry
    stay as they are, each entry is the old one or the old one with the
    dragged [filePath] and the resolved status; and the same event once
    more changes nothing. *)
Theorem handleDragOver_frame (activeId : string) (over : option string) (b : Board) :
  let b' := handleDragOver activeId over b in
  store b' = store b /\
  draggingTask b' = draggingTask b /\
  originalStatus b' = originalStatus b /\
  map filePath (localTasks b') = map filePath (localTasks b) /\
  Forall2 (fun t t' => t' = t \/ (filePath t = activeId /\ exists s, t' = with_status s t))
          (localTasks b) (localTasks b') /\
  handleDragOver activeId over b' = b'.
Proof.
  destruct b as [st g l dt os gs sm isd c tm hl sc].
  unfold handleDragOver. cbn [localTasks].
  destruct over as [overId|];
    [|cbn; repeat split; apply Forall2_same; now left].
  destruct (getStatusFromOverId l overId) as [B|] eqn:R;
    [|cbn; rewrite R; repeat split; apply Forall2_same; now left].
  unfold setLocalTasks. cbn [store git localTasks draggingTask originalStatus
    gitSettings syncMessage initialSyncDone clock timers handleSyncLog syncCalls].
  destruct (findTask activeId l) as [cur|] eqn:F.
  - destruct (Status_eqb (status cur) B) eqn:E.
    + rewrite R, F, E. repeat split. apply Forall2_same. now left.
    + rewrite (getStatusFromOverId_reassign activeId overId B l R).
      rewrite findTask_reassign, F. cbn [option_map].
      rewrite (proj2 (String.eqb_eq _ _) (findTask_path _ _ _ F)).
      cbn [status with_status]. rewrite Status_eqb_refl.
      repeat split; [apply reassign_keys|].
      eapply Forall2_impl; [|apply reassign_frame].
      intros t t' [H|[H1 H2]]; [now left|right; eauto].
  - rewrite (getStatusFromOverId_reassign activeId overId B l R).
    rewrite findTask_reassign, F. cbn [option_map].
    rewrite reassign_reassign.
    repeat split; [apply reassign_keys|].
    eapply Forall2_impl; [|apply reassign_frame].
    intros t t' [H|[H1 H2]]; [now left|right; eauto].
Qed.

Lemma columns_perm (l : list Task) :
  Permutation
    (filter (fun t => Status_eqb (status t) NotStarted) l ++
     filter (fun t => Status_eqb (status t) InProgress) l ++
     filter (fun t => Status_eqb (status t) Done) l)
    l.
Proof.
  induction l as [|t l IH]; [reflexivity|].
  cbn [filter]. destruct (status t); cbn [Status_eqb].
  - cbn [app]. now constructor.
  - symmetry. apply Permutation_cons_app. now symmetry.
  - symmetry. rewrite app_assoc. apply Permutation_cons_app.
    rewrite <- app_assoc. now symmetry.
Qed.

(** X9. The three columns partition the overlay: put one after the other
    they are a rearrangement of [localTasks], so every task is shown
    exactly once, in the column of its status, and the column counts add
    up to the number of tasks. *)
Theorem columns_partition (b : Board) :
  Permutation (List.concat (columns b)) (localTasks b) /\
  (List.length (getTasksByStatus NotStarted b)
   + List.length (getTasksByStatus InProgress b)
   + List.length (getTasksByStatus Done b) = List.length (localTasks b))%nat /\
  (forall s t, In t (getTasksByStatus s b) <-> In t (localTasks b) /\ status t = s).
Proof.
  unfold columns, getTasksByStatus, STATUSES. cbn [map List.concat].
  rewrite app_nil_r.
  split; [apply columns_perm|]. split.
  - rewrite <- (Permutation_length (columns_perm (localTasks b))).
    rewrite !length_app. lia.
  - intros s t. rewrite filter_In, Status_eqb_eq. reflexivity.
Qed.

Lemma reassign_self (id : string) (t : Task) (l : list Task) :
  uniqueKeys l -> findTask id l = Some t -> reassign id (status t) l = l.
Proof.
  unfold uniqueKeys, findTask, reassign.
  induction l as [|x l IH]; simpl; intros Hnd Hf; [reflexivity|].
  inversion Hnd as [|? ? Hnotin Hnd']; subst.
  destruct (filePath x =? id)%string eqn:E.
  - inversion Hf; subst. rewrite with_status_same. f_equal.
    apply String.eqb_eq in E. apply (reassign_no_match id (status t) l).
    apply Forall_forall. intros y Hy Heq. apply Hnotin.
    apply in_map_iff. exists y. split; [congruence|exact Hy].
  - f_equal. now apply IH.
Qed.

Lemma handleDragStart_recoloured (activeId : string) (task : Task) (b : Board) :
  uniqueKeys (localTasks b) ->
  findTask activeId (localTasks b) = Some task ->
  recoloured activeId task (localTasks b) (handleDragStart activeId b) /\
  store (handleDragStart activeId b) = store b.
Proof.
  intros Hu Hf. unfold handleDragStart, recoloured. rewrite Hf. cbn.
  repeat split. exists (status task).
  rewrite (reassign_self _ _ _ Hu Hf), with_status_same. now split.
Qed.

Lemma handleDragOver_store (activeId : string) (over : option string) (b : Board) :
  store (handleDragOver activeId over b) = store b.
Proof.
  unfold handleDragOver. destruct over as [overId|]; [|reflexivity].
  now destruct (getStatusFromOverId (localTasks b) overId).
Qed.

Lemma handleDragOver_recoloured (activeId : string) (task : Task) (l : list Task)
  (over : option string) (b : Board) :
  recoloured activeId task l b ->
  recoloured activeId task l (handleDragOver activeId over b) /\
  (forall overId B,
      over = Some overId ->
      getStatusFromOverId (localTasks b) overId = Some B ->
      localTasks (handleDragOver activeId over b) = reassign activeId B l /\
      findTask activeId (localTasks (handleDragOver activeId over b))
      = Some (with_status B task)).
Proof.
  intros [Ho (s & Hl & Hf)]. unfold handleDragOver, recoloured.
  destruct over as [overId|]; [|split; [eauto|discriminate]].
  destruct (getStatusFromOverId (localTasks b) overId) as [B|] eqn:R;
    [|split; [eauto|intros ? ? H; inversion H; subst; congruence]].
  cbn [localTasks setLocalTasks originalStatus]. rewrite Hf.
  cbn [status with_status].
  pose proof (findTask_path _ _ _ Hf) as Hp. cbn [filePath with_status] in Hp.
  destruct (Status_eqb s B) eqn:E.
  - apply Status_eqb_eq in E. subst s.
    split; [eauto|]. intros overId' B' H HB. inversion H; subst.
    rewrite R in HB. inversion HB; subst. now split.
  - assert (Hl' : reassign activeId B (localTasks b) = reassign activeId B l)
      by (rewrite Hl; apply reassign_reassign).
    assert (Hf' : findTask activeId (reassign activeId B (localTasks b))
                  = Some (with_status B task)).
    { rewrite findTask_reassign, Hf. cbn [option_map filePath with_status].
      rewrite Hp. now rewrite String.eqb_refl. }
    split; [split; [exact Ho|exists B; now split]|].
    intros overId' B' H HB. inversion H; subst.
    rewrite R in HB. inversion HB; subst. now split.
Qed.

Lemma dragOvers_recoloured (activeId : string) (task : Task) (l : list Task)
  (overs : list (option string)) (b : Board) :
  recoloured activeId task l b ->
  recoloured activeId task l (dragOvers activeId overs b) /\
  store (dragOvers activeId overs b) = store b.
Proof.
  unfold dragOvers. revert b.
  induction overs as [|over overs IH]; intros b H; cbn [fold_left]; [now split|].
  destruct (IH (handleDragOver activeId over b)) as [H1 H2].
  - now apply handleDragOver_recoloured.
  - split; [exact H1|]. now rewrite H2, handleDragOver_store.
Qed.

Lemma dragEnd_after_save (activeId : string) (over : option string) (now : string)
  (saved : Response unit) (reload : Response (list Task)) (b b1 : Board) (t : Task) :
  handleDragEnd activeId over b = (b1, Some t) ->
  mirrors_canonical (dragEnd activeId over now saved reload b).
Proof.
  intros H. unfold dragEnd. rewrite H. unfold mirrors_canonical.
  destruct saved as [u|e]; [reflexivity|].
  destruct reload as [loaded|e']; reflexivity.
Qed.

Lemma dragEnd_without_save (activeId : string) (over : option string) (now : string)
  (saved : Response unit) (reload : Response (list Task)) (b b1 : Board) :
  handleDragEnd activeId over b = (b1, None) ->
  dragEnd activeId over now saved reload b = b1.
Proof. intros H. unfold dragEnd. now rewrite H. Qed.

(** X10. A drag whose drop target is the target of its last
    pointer-over event leaves the overlay equal to the store.  Take a
    board whose overlay mirrors the store with pairwise distinct
    [filePath]s, start a drag on one of its tasks and let any pointer-over
    events follow, the last one on a target the board can resolve (or on
    none); after the drop on that same target, and whatever becomes of
    the save if one is made, the overlay shows exactly the canonical
    collection.  The same holds for a drop anywhere when no pointer-over
    event came in between. *)
Theorem drag_consistent_mirrors (b : Board) (activeId : string) (task : Task)
  (overs : list (option string)) (last : option string) (now : string)
  (saved : Response unit) (reload : Response (list Task)) :
  mirrors_canonical b ->
  uniqueKeys (localTasks b) ->
  findTask activeId (localTasks b) = Some task ->
  (resolvable last (dragOvers activeId overs (handleDragStart activeId b)) ->
   mirrors_canonical
     (dragEnd activeId last now saved reload
        (dragOvers activeId (overs ++ [last]) (handleDragStart activeId b)))) /\
  (forall target,
      mirrors_canonical
        (dragEnd activeId target now saved reload (handleDragStart activeId b))).
Proof.
  intros Hm Hu Hf.
  destruct (handleDragStart_recoloured _ _ _ Hu Hf) as [Hr0 Hs0].
  assert (Hself : reassign activeId (status task) (localTasks b) = localTasks b)
    by now apply reassign_self.
  split.
  - intros Hres.
    destruct (dragOvers_recoloured activeId task (localTasks b) overs _ Hr0)
      as [Hr Hs].
    set (b0 := dragOvers activeId overs (handleDragStart activeId b)) in *.
    unfold dragOvers at 1. rewrite fold_left_app. cbn [fold_left].
    fold (dragOvers activeId overs (handleDragStart activeId b)). fold b0.
    destruct last as [target|].
    + cbn [resolvable] in Hres.
      destruct (getStatusFromOverId (localTasks b0) target) as [B|] eqn:R;
        [|congruence].
      destruct (handleDragOver_recoloured activeId task (localTasks b)
                  (Some target) b0 Hr) as [[Ho1 _] Hlast].
      destruct (Hlast target B eq_refl R) as [Hl1 Hf1].
      set (b1 := handleDragOver activeId (Some target) b0) in *.
      assert (R1 : getStatusFromOverId (localTasks b1) target = Some B).
      { destruct Hr as [_ (s0 & Hl0 & _)]. rewrite Hl1.
        rewrite <- (reassign_reassign activeId s0 B (localTasks b)), <- Hl0.
        now apply getStatusFromOverId_reassign. }
      destruct (differs (originalStatus b1) B) eqn:D.
      * eapply dragEnd_after_save. unfold handleDragEnd.
        rewrite Hf1, R1, D. reflexivity.
      * erewrite dragEnd_without_save;
          [|unfold handleDragEnd; rewrite Hf1, R1, D; reflexivity].
        unfold mirrors_canonical. cbn [localTasks store setOriginalStatus setDraggingTask].
        rewrite Ho1 in D. cbn [differs] in D.
        apply negb_false_iff, Status_eqb_eq in D. subst B.
        rewrite Hl1, Hself. unfold b1. rewrite handleDragOver_store. fold b0.
        now rewrite Hs, Hs0.
    + cbn [handleDragOver]. destruct Hr as [Ho (s0 & Hl0 & _)].
      erewrite dragEnd_without_save;
        [|unfold handleDragEnd; rewrite Ho; reflexivity].
      unfold mirrors_canonical.
      cbn [localTasks store setLocalTasks setOriginalStatus setDraggingTask].
      rewrite Hl0, reassign_reassign, Hself. now rewrite Hs, Hs0.
  - intros target.
    destruct Hr0 as [Ho (s0 & Hl0 & Hf0)].
    set (b0 := handleDragStart activeId b) in *.
    assert (Hloc : localTasks b0 = localTasks b)
      by (unfold b0, handleDragStart; now rewrite Hf).
    destruct target as [overId|].
    + destruct (getStatusFromOverId (localTasks b0) overId) as [B|] eqn:R.
      * destruct (differs (originalStatus b0) B) eqn:D.
        -- eapply dragEnd_after_save. unfold handleDragEnd.
           rewrite Hf0, R, D. reflexivity.
        -- erewrite dragEnd_without_save;
             [|unfold handleDragEnd; rewrite Hf0, R, D; reflexivity].
           unfold mirrors_canonical.
           cbn [localTasks store setOriginalStatus setDraggingTask].
           now rewrite Hloc, Hs0.
      * erewrite dragEnd_without_save;
          [|unfold handleDragEnd; rewrite Hf0, R; reflexivity].
        unfold mirrors_canonical.
        cbn [localTasks store setOriginalStatus setDraggingTask].
        now rewrite Hloc, Hs0.
    + erewrite dragEnd_without_save;
        [|unfold handleDragEnd; rewrite Ho; reflexivity].
      unfold mirrors_canonical.
      cbn [localTasks store setLocalTasks setOriginalStatus setDraggingTask].
      rewrite Hloc, Hself. now rewrite Hs0.
Qed.

Lemma drag_consistent_mirrors_witness :
  let task := sample "a.md" "2026-03-01" Low in
  let b1 := dragOvers "a.md" ([Some "完了"%string] ++ [Some "未着手"%string])
              (handleDragStart "a.md" sampleBoard) in
  mirrors_canonical sampleBoard /\
  uniqueKeys (localTasks sampleBoard) /\
  findTask "a.md" (localTasks sampleBoard) = Some task /\
  mirrors_canonical
    (dragEnd "a.md" (Some "未着手"%string) "2026-01-02-10:00"
       (Rejected "busy") (Resolved sampleTasks) b1).
Proof.
  intros task b1.
  assert (Hm : mirrors_canonical sampleBoard) by reflexivity.
  assert (Hu : uniqueKeys (localTasks sampleBoard)).
  { unfold uniqueKeys. vm_compute. repeat constructor; simpl; intuition discriminate. }
  assert (Hf : findTask "a.md" (localTasks sampleBoard) = Some task)
    by (vm_compute; reflexivity).
  split; [exact Hm|]. split; [exact Hu|]. split; [exact Hf|].
  apply (proj1 (drag_consistent_mirrors sampleBoard "a.md" task
                  [Some "完了"%string] (Some "未着手"%string) "2026-01-02-10:00"
                  (Rejected "busy") (Resolved sampleTasks) Hm Hu Hf)).
  cbn [resolvable]. vm_compute. discriminate.
Defined.

(** ** Repository sync, continued *)

Lemma step_not_fires (b : Board) (e : Event) : fires (step b e) = false.
Proof.
  unfold step.
  destruct (autoSyncEffect_fields (handle e b)) as (_ & Hflag & _).
  destruct (fires (handle e b)) eqn:F.
  - unfold fires. rewrite Hflag, orb_true_r. cbn [negb]. apply andb_false_r.
  - unfold autoSyncEffect. unfold fires in F. now rewrite F.
Qed.

Lemma run_snoc (events : list Event) (e : Event) (b : Board) :
  run (events ++ [e]) b = step (run events b) e.
Proof. unfold run. now rewrite fold_left_app. Qed.

Lemma run_not_fires (saved : option GitSettings) (now : N) (events : list Event) :
  fires (run events (mountBoard saved now)) = false.
Proof.
  destruct events as [|e events _] using rev_ind; [reflexivity|].
  rewrite run_snoc. apply step_not_fires.
Qed.

(** X11. Whenever a mounted board is ready (the detection is over and
    the folder is a repository), the auto-sync effect has run
    [handleSync] exactly once and the single-shot ref is set, whatever
    events led there. *)
Theorem auto_sync_once_when_ready (saved : option GitSettings) (now : N)
  (events : list Event) :
  let b := run events (mountBoard saved now) in
  isChecking (git b) = false ->
  isGitRepo (git b) = true ->
  initialSyncDone b = true /\ autoSyncCount b = 1%nat.
Proof.
  intros b Hc Hr.
  pose proof (run_not_fires saved now events) as F. fold b in F.
  unfold fires in F. rewrite Hc, Hr in F. cbn in F.
  apply negb_false_iff in F.
  assert (H : single_shot b) by (apply run_single_shot; reflexivity).
  unfold single_shot in H. rewrite F in H. now split.
Qed.

Lemma auto_sync_once_when_ready_witness :
  let b := run readyEvents (mountBoard None 0) in
  isChecking (git b) = false /\ isGitRepo (git b) = true /\
  initialSyncDone b = true /\ autoSyncCount b = 1%nat.
Proof.
  intros b.
  assert (Hc : isChecking (git b) = false) by (vm_compute; reflexivity).
  assert (Hr : isGitRepo (git b) = true) by (vm_compute; reflexivity).
  split; [exact Hc|]. split; [exact Hr|].
  exact (auto_sync_once_when_ready None 0%N readyEvents Hc Hr).
Defined.

Lemma handle_isGitRepo (e : Event) (b : Board) :
  repoConfirmed e = false ->
  isGitRepo (git b) = false ->
  isGitRepo (git (handle e b)) = false /\
  syncCalls (handle e b) = syncCalls b.
Proof.
  intros He Hb.
  destruct b as [st g l dt os gs sm isd c tm hl sc].
  destruct g as [repo br cb syncing last checking].
  cbn in Hb. subst repo.
  destruct e as [ |[[|]|x]|[v|x]|[v|x]| | |br'|[[[|] pu co me]|x]|so [v|x]|o|d|so [v|x]];
    cbn in He |- *; try discriminate; try (now split).
  - now destruct (SortOption_eqb o (sortOption st)).
  - unfold elapse. cbn [clock timers].
    destruct (filter (fun d0 => (d0 <=? c + d)%N) tm); now split.
Qed.

Lemma autoSyncEffect_not_repo (b : Board) :
  isGitRepo (git b) = false -> autoSyncEffect b = b.
Proof.
  intros H. unfold autoSyncEffect. rewrite H. now rewrite andb_false_r.
Qed.

(** X12. In a folder that is not a repository no sync is ever started:
    as long as no repository check has answered "yes" (it answered "no" or
    failed), the board stays outside a repository, [sync] has not been
    called, neither by the effect nor by the button, and the single-shot
    ref is still unset. *)
Theorem no_sync_outside_repository (saved : option GitSettings) (now : N)
  (events : list Event) :
  forallb (fun e => negb (repoConfirmed e)) events = true ->
  let b := run events (mountBoard saved now) in
  isGitRepo (git b) = false /\ syncCalls b = [] /\ initialSyncDone b = false.
Proof.
  intros Hev b. subst b.
  induction events as [|e events IH] using rev_ind; [now repeat split|].
  rewrite forallb_app in Hev. apply andb_true_iff in Hev as [Hev He].
  cbn in He. rewrite andb_true_r in He. apply negb_true_iff in He.
  destruct (IH Hev) as (Hr & Hs & Hd).
  rewrite run_snoc. unfold step.
  destruct (handle_isGitRepo e _ He Hr) as [Hr' Hs'].
  rewrite autoSyncEffect_not_repo by exact Hr'.
  repeat split; [exact Hr'|congruence|].
  destruct (handle_log e (run events (mountBoard saved now))) as [_ Hflag].
  congruence.
Qed.

Lemma no_sync_outside_repository_witness :
  let b := run [CheckGitRepoSettled (Rejected "not found"); ClickSync;
                CheckGitRepoSettled (Resolved false); ClickSync]
               (mountBoard None 0) in
  isGitRepo (git b) = false /\ syncCalls b = [] /\ initialSyncDone b = false.
Proof.
  apply no_sync_outside_repository. reflexivity.
Defined.

Lemma handle_isSyncing (e : Event) (b : Board) :
  isGitSyncSettled e = false ->
  isSyncing (git b) = true ->
  isSyncing (git (handle e b)) = true /\
  syncCalls (handle e b) = syncCalls b.
Proof.
  intros He Hb.
  destruct b as [st g l dt os gs sm isd c tm hl sc].
  destruct g as [repo br cb syncing last checking].
  cbn in Hb. subst syncing.
  destruct e as [ |[[|]|x]|[v|x]|[v|x]| | |br'|[[[|] pu co me]|x]|so [v|x]|o|d|so [v|x]];
    cbn in He |- *; try discriminate; try (now split).
  - unfold handleSync_begin. cbn [git isGitRepo isSyncing].
    rewrite orb_true_r. now split.
  - now destruct (SortOption_eqb o (sortOption st)).
  - unfold elapse. cbn [clock timers].
    destruct (filter (fun d0 => (d0 <=? c + d)%N) tm); now split.
Qed.

(** X13. While a sync is in flight no second one is started: from a
    board with [isSyncing] raised, every event other than the settlement
    of that sync leaves [isSyncing] raised and makes no [sync] call, be it
    a click on the sync button or a run of the auto-sync effect. *)
Theorem sync_not_reentrant (b : Board) (e : Event) :
  isSyncing (git b) = true ->
  isGitSyncSettled e = false ->
  isSyncing (git (step b e)) = true /\ syncCalls (step b e) = syncCalls b.
Proof.
  intros Hb He. unfold step.
  destruct (handle_isSyncing e b He Hb) as [Hs Hc].
  unfold autoSyncEffect.
  destruct (negb (isChecking (git (handle e b))) && isGitRepo (git (handle e b))
            && negb (initialSyncDone (handle e b))); [|now split].
  unfold handleSync_begin.
  cbn [git setInitialSyncDone]. rewrite Hs, orb_true_r.
  cbn [git syncCalls logHandleSync setInitialSyncDone]. now split.
Qed.

Lemma sync_not_reentrant_witness :
  let b := run readyEvents (mountBoard None 0) in
  isSyncing (git b) = true /\
  isSyncing (git (step b ClickSync)) = true /\
  syncCalls (step b ClickSync) = syncCalls b.
Proof.
  intros b.
  assert (Hb : isSyncing (git b) = true) by (vm_compute; reflexivity).
  split; [exact Hb|].
  exact (sync_not_reentrant b ClickSync Hb eq_refl).
Defined.

(** ** The root component *)

Lemma appStep_restart (a : App) (e : AppEvent) :
  isInitialized a = true ->
  isInitialized (appStep a e) = true /\
  render (mountApp (lastFolder (appStep a e))) = render (appStep a e).
Proof.
  intros Hi. destruct e as [p|]; cbn.
  - rewrite Hi. split; [reflexivity|]. unfold render. cbn. rewrite Hi. cbn.
    now destruct p.
  - rewrite Hi. split; [reflexivity|]. unfold render. cbn. now rewrite Hi.
Qed.

(** X14. The folder pointer in [localStorage] always brings the
    application back to the screen it was showing: after any sequence of
    folder selections and returns to the start screen, mounting the
    application again over what was stored renders the same screen, the
    board of the same folder or the start screen. *)
Theorem app_restart_same_screen (stored : option string) (events : list AppEvent) :
  let a := appRun events (mountApp stored) in
  isInitialized a = true /\
  render (mountApp (lastFolder a)) = render a.
Proof.
  cbn zeta. unfold appRun.
  induction events as [|e events IH] using rev_ind.
  - cbn. split; [reflexivity|]. unfold render, mountApp. cbn.
    destruct stored as [[|c p]|]; reflexivity.
  - rewrite fold_left_app. cbn [fold_left].
    apply appStep_restart. apply IH.
Qed.

(** ** The task modal *)

Lemma toggled_toggled (st : SubTask) : toggled (toggled st) = st.
Proof. destruct st as [t c]. unfold toggled. cbn. now rewrite negb_involutive. Qed.

Lemma map_index_nth {A B : Type} (f : A -> nat -> B) (k : nat) (l : list A) (j : nat) :
  nth_error (map_index f k l) j = option_map (fun x => f x (k + j)%nat) (nth_error l j).
Proof.
  revert k j. induction l as [|x l IH]; intros k [|j]; cbn; try reflexivity.
  - now rewrite Nat.add_0_r.
  - rewrite IH. now rewrite Nat.add_succ_r.
Qed.

Lemma map_index_length {A B : Type} (f : A -> nat -> B) (k : nat) (l : list A) :
  List.length (map_index f k l) = List.length l.
Proof. revert k. induction l as [|x l IH]; intros k; cbn; [reflexivity|]. now rewrite IH. Qed.

Lemma map_index_toggle_twice (index k : nat) (l : list SubTask) :
  map_index (fun st i => if (i =? index)%nat then toggled st else st) k
    (map_index (fun st i => if (i =? index)%nat then toggled st else st) k l)
  = l.
Proof.
  revert k. induction l as [|st l IH]; intros k; cbn; [reflexivity|].
  rewrite IH. destruct (k =? index)%nat; [now rewrite toggled_toggled|reflexivity].
Qed.

Lemma filter_index_past {A : Type} (index k : nat) (l : list A) :
  (index < k)%nat ->
  filter_index (fun _ i => negb (i =? index)%nat) k l = l.
Proof.
  revert k. induction l as [|x l IH]; intros k Hk; cbn; [reflexivity|].
  destruct (k =? index)%nat eqn:E; [apply Nat.eqb_eq in E; lia|].
  cbn. rewrite IH by lia. reflexivity.
Qed.

Lemma filter_index_cut {A : Type} (index k : nat) (l : list A) :
  (k <= index)%nat ->
  filter_index (fun _ i => negb (i =? index)%nat) k l
  = firstn (index - k) l ++ skipn (S (index - k)) l.
Proof.
  revert k. induction l as [|x l IH]; intros k Hk; cbn [filter_index].
  - now rewrite firstn_nil, skipn_nil.
  - destruct (k =? index)%nat eqn:E.
    + apply Nat.eqb_eq in E. subst k. rewrite Nat.sub_diag. cbn.
      apply filter_index_past. lia.
    + apply Nat.eqb_neq in E. cbn [negb].
      replace (index - k)%nat with (S (index - S k)) by lia.
      cbn [firstn skipn app]. rewrite IH by lia. reflexivity.
Qed.

(** X15. Ticking a sub-task's checkbox flips that sub-task and nothing
    else: the list keeps its length, the entry at the index has its
    [completed] negated and its text kept, every other entry is
    untouched, an index past the end changes no entry; ticking the same
    box twice gives back the modal state it started from. *)
Theorem toggleSubTask_flips_one (index : nat) (m : TaskModal) :
  toggleSubTask index (toggleSubTask index m) = m /\
  List.length (shownSubTasks (toggleSubTask index m)) = List.length (shownSubTasks m) /\
  (forall j,
      nth_error (shownSubTasks (toggleSubTask index m)) j
      = option_map (fun st => if (j =? index)%nat then toggled st else st)
                   (nth_error (shownSubTasks m) j)) /\
  map text (shownSubTasks (toggleSubTask index m)) = map text (shownSubTasks m).
Proof.
  destruct m as [[t|] ns]; [|repeat split; intros j; now destruct j].
  unfold toggleSubTask, shownSubTasks, updateField. cbn.
  split; [|split; [|split]].
  - rewrite map_index_toggle_twice. now destruct t.
  - apply map_index_length.
  - intros j. now rewrite map_index_nth.
  - generalize 0%nat. induction (subTasks t) as [|st l IH]; intros k; cbn; [reflexivity|].
    rewrite IH. now destruct (k =? index)%nat.
Qed.

(** X16. Deleting a sub-task removes exactly the entry at the index: what
    is shown afterwards is what stood before the index followed by what
    stood after it, one entry fewer; with an index past the end the modal
    state does not change at all. *)
Theorem removeSubTask_removes_one (index : nat) (m : TaskModal) :
  shownSubTasks (removeSubTask index m)
  = firstn index (shownSubTasks m) ++ skipn (S index) (shownSubTasks m) /\
  ((index < List.length (shownSubTasks m))%nat ->
   S (List.length (shownSubTasks (removeSubTask index m)))
   = List.length (shownSubTasks m)) /\
  ((List.length (shownSubTasks m) <= index)%nat -> removeSubTask index m = m).
Proof.
  destruct m as [[t|] ns].
  - unfold removeSubTask, shownSubTasks, updateField. cbn.
    rewrite filter_index_cut by lia. rewrite Nat.sub_0_r.
    split; [reflexivity|]. split.
    + intros H. rewrite length_app, length_firstn, length_skipn. lia.
    + intros H. rewrite firstn_all2 by exact H.
      rewrite skipn_all2 by lia. rewrite app_nil_r.
      now destruct t.
  - cbn. rewrite ?firstn_nil, ?skipn_nil. repeat split.
    intros H. cbn in H. lia.
Qed.

Lemma removeSubTask_removes_one_witness :
  S (List.length (shownSubTasks (removeSubTask 0 sampleModal)))
  = List.length (shownSubTasks sampleModal) /\
  removeSubTask 2 sampleModal = sampleModal.
Proof.
  split.
  - apply (proj1 (proj2 (removeSubTask_removes_one 0 sampleModal))). cbn. lia.
  - apply (proj2 (proj2 (removeSubTask_removes_one 2 sampleModal))). cbn. lia.
Defined.

(** X17. Adding a sub-task, for whatever [trim] does: an input that trims
    to nothing is ignored and the modal state stays as it is; otherwise
    the trimmed text is appended as the last sub-task, not completed, the
    others keep their places, and the input box is emptied.  Deleting the
    entry at the old length right after adding gives back the task as it
    was. *)
Theorem addSubTask_appends (trim : string -> string) (m : TaskModal) (t : Task) :
  editedTask m = Some t ->
  (trim (newSubTask m) = ""%string -> addSubTask trim m = m) /\
  (trim (newSubTask m) <> ""%string ->
   shownSubTasks (addSubTask trim m)
   = subTasks t ++ [mkSubTask (trim (newSubTask m)) false] /\
   newSubTask (addSubTask trim m) = ""%string) /\
  editedTask (removeSubTask (List.length (subTasks t)) (addSubTask trim m)) = Some t.
Proof.
  intros Ht. destruct m as [et ns]. cbn in Ht. subst et.
  unfold addSubTask. cbn [editedTask newSubTask].
  destruct (trim ns =? "")%string eqn:E.
  - apply String.eqb_eq in E. split; [reflexivity|]. split; [congruence|].
    unfold removeSubTask, updateField. cbn.
    rewrite filter_index_cut by lia. rewrite Nat.sub_0_r.
    rewrite firstn_all, skipn_all2 by lia. rewrite app_nil_r.
    now destruct t.
  - apply String.eqb_neq in E. split; [congruence|]. split; [now split|].
    unfold removeSubTask, updateField, setNewSubTask. cbn.
    rewrite filter_index_cut by lia. rewrite Nat.sub_0_r.
    rewrite firstn_app, Nat.sub_diag, firstn_all. cbn [firstn]. rewrite app_nil_r.
    rewrite skipn_all2 by (rewrite length_app; cbn; lia).
    rewrite app_nil_r. now destruct t.
Qed.

Lemma addSubTask_appends_witness :
  shownSubTasks (addSubTask noTrim sampleModal)
  = [mkSubTask "draft" true; mkSubTask "review" false; mkSubTask "publish" false] /\
  newSubTask (addSubTask noTrim sampleModal) = ""%string /\
  editedTask (removeSubTask 2 (addSubTask noTrim sampleModal)) = editedTask sampleModal.
Proof.
  destruct (addSubTask_appends noTrim sampleModal _ eq_refl) as (_ & Hadd & Hback).
  destruct Hadd as [H1 H2]; [discriminate|].
  split; [exact H1|]. split; [exact H2|exact Hback].
Defined.

Lemma modalStep_identity (trim : string -> string) (m : TaskModal) (e : ModalEvent)
  (t : Task) :
  editedTask m = Some t ->
  exists t', editedTask (modalStep trim m e) = Some t' /\
             filePath t' = filePath t /\ created t' = created t /\
             updated t' = updated t.
Proof.
  intros Ht. destruct m as [et ns]. cbn in Ht. subst et.
  destruct e as [u|v| |i|i]; cbn.
  - eexists. split; [reflexivity|]. now destruct u.
  - eauto.
  - unfold addSubTask. cbn. destruct (trim ns =? "")%string; cbn; eauto.
  - unfold removeSubTask. cbn. eauto.
  - unfold toggleSubTask. cbn. eauto.
Qed.

(** X18. Nothing the user does inside the modal changes which task is
    being edited or its timestamps: through any sequence of field edits
    and sub-task additions, deletions and ticks, the modal still holds a
    task, with the [filePath], [created] and [updated] it was opened
    with. *)
Theorem modal_keeps_identity (trim : string -> string) (events : list ModalEvent)
  (m : TaskModal) (t : Task) :
  editedTask m = Some t ->
  exists t', editedTask (modalRun trim events m) = Some t' /\
             filePath t' = filePath t /\ created t' = created t /\
             updated t' = updated t.
Proof.
  unfold modalRun. revert m t.
  induction events as [|e events IH]; intros m t Ht; cbn [fold_left]; [eauto|].
  destruct (modalStep_identity trim m e t Ht) as (t1 & H1 & Hp & Hc & Hu).
  destruct (IH _ _ H1) as (t' & H' & Hp' & Hc' & Hu').
  exists t'. repeat split; congruence.
Qed.

Lemma modal_keeps_identity_witness :
  exists t',
    editedTask (modalRun noTrim
                  [Edit (TitleField "rewrite"); AddSubTask; ToggleSubTask 1;
                   RemoveSubTask 0; Edit (StatusField Done)] sampleModal) = Some t' /\
    filePath t' = "a.md"%string /\ created t' = "2026-01-01-09:00"%string /\
    updated t' = "2026-01-01-09:00"%string.
Proof.
  exact (modal_keeps_identity noTrim _ sampleModal _ eq_refl).
Defined.

(** ** Repository detection and the outcome of a sync *)

(** X19. The three detection calls never throw.  Each returns the
    backend's answer and stores it, and for a rejected call returns and
    stores its fallback instead: not a repository, no branches, no current
    branch.  On the board, a repository check that fails or says "no" ends
    the detection at once: [isChecking] goes down with [isGitRepo] off. *)
Theorem detection_never_throws :
  (forall r g,
      checkGitRepo r g
      = (Returned (match r with Resolved v => v | Rejected _ => false end),
         setIsGitRepo (match r with Resolved v => v | Rejected _ => false end) g)) /\
  (forall r g,
      fetchBranches r g
      = (Returned (match r with Resolved v => v | Rejected _ => [] end),
         setBranches (match r with Resolved v => v | Rejected _ => [] end) g)) /\
  (forall r g,
      fetchCurrentBranch r g
      = (Returned (match r with Resolved v => v | Rejected _ => EmptyString end),
         setCurrentBranch
           (match r with Resolved v => v | Rejected _ => EmptyString end) g)) /\
  (forall r b,
      repoConfirmed (CheckGitRepoSettled r) = false ->
      isChecking (git (handle (CheckGitRepoSettled r) b)) = false /\
      isGitRepo (git (handle (CheckGitRepoSettled r) b)) = false).
Proof.
  split; [|split; [|split]].
  - intros [v|e] g; reflexivity.
  - intros [v|e] g; reflexivity.
  - intros [v|e] g; reflexivity.
  - intros [[|]|e] b H; [discriminate| |]; now split.
Qed.

Lemma detection_never_throws_witness :
  isChecking (git (handle (CheckGitRepoSettled (Rejected "no git"))
                     (mountBoard None 0))) = false /\
  isGitRepo (git (handle (CheckGitRepoSettled (Rejected "no git"))
                    (mountBoard None 0))) = false.
Proof.
  apply (proj2 (proj2 (proj2 detection_never_throws))). reflexivity.
Defined.

(** X20. What [handleSync] does with the outcome of [sync].  It shows
    the result's message in every case.  A result that pulled nothing
    leaves the store and the overlay alone; so does every failed sync,
    whose synthesized result never counts as pulled.  A result that pulled
    starts a reload, which keeps the tasks until it settles; a reload that
    succeeds puts the backend's list, sorted, into the store and the
    overlay alike, one that fails keeps both as they were. *)
Theorem handleSync_outcome (r : Response SyncResult) (b : Board) :
  let b' := handleSync_afterSync r b in
  syncMessage b' = Some (message (resultOf r)) /\
  lastSyncResult (git b') = Some (resultOf r) /\
  isSyncing (git b') = false /\
  (pulled (resultOf r) = false -> store b' = store b /\ localTasks b' = localTasks b) /\
  (forall e, r = Rejected e -> store b' = store b /\ localTasks b' = localTasks b) /\
  (pulled (resultOf r) = true ->
   store b' = loadTasks_begin (store b) /\ localTasks b' = localTasks b /\
   (forall so l,
       tasks (store (handleSync_afterReload so (Resolved l) b')) = sortTasks l so /\
       mirrors_canonical (handleSync_afterReload so (Resolved l) b')) /\
   (forall so e,
       tasks (store (handleSync_afterReload so (Rejected e) b')) = tasks (store b) /\
       localTasks (handleSync_afterReload so (Rejected e) b') = localTasks b)).
Proof.
  cbn zeta. unfold handleSync_afterSync, runGit. rewrite sync_settle_returns.
  split; [now destruct (pulled (resultOf r))|].
  split; [now destruct (pulled (resultOf r))|].
  split; [now destruct (pulled (resultOf r))|].
  split; [intros ->; now split|].
  split; [intros e ->; now split|].
  intros ->. split; [reflexivity|]. split; [reflexivity|]. split.
  - intros so l. now split.
  - intros so e. now split.
Qed.

Lemma handleSync_outcome_witness :
  let b' := handleSync_afterSync (Resolved pulledResult) sampleBoard in
  store b' = loadTasks_begin (store sampleBoard) /\
  mirrors_canonical (handleSync_afterReload DueAsc (Resolved sampleTasks) b') /\
  store (handleSync_afterSync (Rejected "offline") sampleBoard) = store sampleBoard.
Proof.
  intros b'.
  destruct (handleSync_outcome (Resolved pulledResult) sampleBoard)
    as (_ & _ & _ & _ & _ & Hpulled).
  destruct (Hpulled eq_refl) as (Hs & _ & Hok & _).
  destruct (handleSync_outcome (Rejected "offline") sampleBoard)
    as (_ & _ & _ & _ & Hfail & _).
  split; [exact Hs|]. split; [exact (proj2 (Hok DueAsc sampleTasks))|].
  exact (proj1 (Hfail "offline"%string eq_refl)).
Defined.
